(** * HKA-Modell_basierte_Software: generic containers and the worker pipeline

    A shallow embedding of the Go sources

    - [queue/queue.go]  (package [queue]: [Queue[T]] with [Add], [Next],
      [Peek], [IsEmpty]),
    - package [stack]   ([Stack[T]] with [Push], [Pop], [Peek], [IsEmpty]),
    - package [main]    ([worker] and the coordinator loop of [main]).

    Go values are modelled as follows: [int] is [Z], a slice [[]T] is a
    [list T] whose index in the list is the index in the slice, a method
    with a pointer receiver takes the receiver's value and returns the new
    one next to its results, and a run-time panic (index or slice bounds
    out of range) is the [Panic] outcome of the [result] type.  Goroutines
    and the two unbuffered channels of [main] are a transition system whose
    scheduler picks, at every step, the goroutine that moves next. *)

From Stdlib Require Import ZArith Lia.
From stdpp Require Import base list strings.
From Equations Require Import Equations.

Local Open Scope Z_scope.

(** ** Go run-time conventions *)

(** Outcome of a piece of Go code that may panic. *)
Inductive result (A : Type) : Type :=
| Ok (a : A)
| Panic.
Arguments Ok {A} a.
Arguments Panic {A}.

#[export] Instance result_bind : MBind result := λ A B k r,
  match r with
  | Ok a => k a
  | Panic => Panic
  end.

(** [var zero T]: every Go type has a zero value. *)
Class GoZero (T : Type) := zero_value : T.

#[export] Instance int_zero : GoZero Z := 0.
#[export] Instance string_zero : GoZero string := EmptyString.
#[export] Instance bool_zero : GoZero bool := false.

Section Slices.
Context {T : Type}.

(** [len(s)] *)
Definition len (s : list T) : Z := Z.of_nat (length s).

(** [s[i]]: panics when [i] is out of range. *)
Definition slice_index (s : list T) (i : Z) : result T :=
  if (0 <=? i) && (i <? len s)
  then match s !! Z.to_nat i with
       | Some x => Ok x
       | None => Panic
       end
  else Panic.

(** [s[lo:hi]]: panics unless [0 <= lo <= hi <= len(s)].  Go allows [hi]
    up to the capacity; the length is the bound that every slice grants,
    so a slicing that is safe here is safe in Go. *)
Definition slice_sub (s : list T) (lo hi : Z) : result (list T) :=
  if (0 <=? lo) && (lo <=? hi) && (hi <=? len s)
  then Ok (take (Z.to_nat (hi - lo)) (drop (Z.to_nat lo) s))
  else Panic.

(** [append(s, x)] *)
Definition append (s : list T) (x : T) : list T := s ++ [x].
End Slices.

(** ** Package [stack] *)

Module stack.

Record Stack (T : Type) : Type := mkStack { items : list T }.
Arguments mkStack {T} items.
Arguments items {T} s.

Section Methods.
Context {T : Type} `{GoZero T}.

(** [func New[T any]() *Stack[T]] *)
Definition New : Stack T := mkStack [].

(** [func (s *Stack[T]) Push(item T)] *)
Definition Push (item : T) (s : Stack T) : Stack T :=
  mkStack (append (items s) item).

(** [func (s *Stack[T]) Pop() (T, bool)] *)
Definition Pop (s : Stack T) : result ((T * bool) * Stack T) :=
  if len (items s) =? 0
  then Ok ((zero_value, false), s)
  else
    item ← slice_index (items s) (len (items s) - 1) ;
    rest ← slice_sub (items s) 0 (len (items s) - 1) ;
    Ok ((item, true), mkStack rest).

(** [func (s *Stack[T]) Peek() (T, bool)] *)
Definition Peek (s : Stack T) : result ((T * bool) * Stack T) :=
  if len (items s) =? 0
  then Ok ((zero_value, false), s)
  else
    item ← slice_index (items s) (len (items s) - 1) ;
    Ok ((item, true), s).

(** [func (s *Stack[T]) IsEmpty() bool] *)
Definition IsEmpty (s : Stack T) : bool := len (items s) =? 0.
End Methods.

End stack.

(** ** Package [queue] *)

Module queue.

Record Queue (T : Type) : Type := mkQueue { items : list T }.
Arguments mkQueue {T} items.
Arguments items {T} q.

Section Methods.
Context {T : Type} `{GoZero T}.

(** [func New[T any]() *Queue[T]] *)
Definition New : Queue T := mkQueue [].

(** [func (q *Queue[T]) Add(item T)] *)
Definition Add (item : T) (q : Queue T) : Queue T :=
  mkQueue (append (items q) item).

(** [func (q *Queue[T]) Next() (T, bool)] *)
Definition Next (q : Queue T) : result ((T * bool) * Queue T) :=
  if len (items q) =? 0
  then Ok ((zero_value, false), q)
  else
    item ← slice_index (items q) 0 ;
    rest ← slice_sub (items q) 1 (len (items q)) ;
    Ok ((item, true), mkQueue rest).

(** [func (q *Queue[T]) Peek() (T, bool)] *)
Definition Peek (q : Queue T) : result ((T * bool) * Queue T) :=
  if len (items q) =? 0
  then Ok ((zero_value, false), q)
  else
    item ← slice_index (items q) 0 ;
    Ok ((item, true), q).

(** [func (q *Queue[T]) IsEmpty() bool] *)
Definition IsEmpty (q : Queue T) : bool := len (items q) =? 0.
End Methods.

End queue.

(** ** Draining a container

    The drivers of the container properties: insert a list of items one
    after the other, then call remove-next until it reports [found = false],
    collecting the items in the order in which they come out. *)

Section Drivers.
Context {T : Type} `{GoZero T}.

(** Case analysis that remembers the equation of the scrutinee. *)
Definition inspect {A : Type} (a : A) : {b : A | a = b} := exist _ a eq_refl.

Definition push_all (xs : list T) (s : stack.Stack T) : stack.Stack T :=
  foldl (λ s x, stack.Push x s) s xs.

Definition add_all (xs : list T) (q : queue.Queue T) : queue.Queue T :=
  foldl (λ q x, queue.Add x q) q xs.

Equations? drain_stack (s : stack.Stack T) : result (list T)
  by wf (length (stack.items s)) lt :=
  drain_stack s with inspect (stack.Pop s) := {
    | exist _ Panic _ => Panic
    | exist _ (Ok ((_, false), _)) _ => Ok []
    | exist _ (Ok ((item, true), s')) Hpop =>
        match drain_stack s' with
        | Ok rest => Ok (item :: rest)
        | Panic => Panic
        end
    }.
Proof.
  unfold stack.Pop in Hpop.
  destruct (len (stack.items s) =? 0) eqn:Hz; [discriminate|].
  apply Z.eqb_neq in Hz.
  destruct (slice_index _ _); [|discriminate]. cbn in Hpop.
  unfold slice_sub in Hpop.
  destruct (_ && _); [|discriminate]. cbn in Hpop.
  injection Hpop as _ <-. cbn.
  rewrite length_take. unfold len in *. lia.
Qed.

Equations? drain_queue (q : queue.Queue T) : result (list T)
  by wf (length (queue.items q)) lt :=
  drain_queue q with inspect (queue.Next q) := {
    | exist _ Panic _ => Panic
    | exist _ (Ok ((_, false), _)) _ => Ok []
    | exist _ (Ok ((item, true), q')) Hnext =>
        match drain_queue q' with
        | Ok rest => Ok (item :: rest)
        | Panic => Panic
        end
    }.
Proof.
  unfold queue.Next in Hnext.
  destruct (len (queue.items q) =? 0) eqn:Hz; [discriminate|].
  apply Z.eqb_neq in Hz.
  destruct (slice_index _ _); [|discriminate]. cbn in Hnext.
  unfold slice_sub in Hnext.
  destruct (_ && _); [|discriminate]. cbn in Hnext.
  injection Hnext as _ <-. cbn.
  rewrite length_take, length_drop. unfold len in *. lia.
Qed.
End Drivers.

(** The items [1, 2, ..., k] of the container properties. *)
Definition one_to (k : nat) : list Z := seqZ 1 (Z.of_nat k).

(** The items [k, k-1, ..., 1]. *)
Fixpoint down_from (k : nat) : list Z :=
  match k with
  | O => []
  | S k' => Z.of_nat k :: down_from k'
  end.

(** ** Package [main]: the worker

    [func worker[T any](id int, in <-chan T, out chan<- bool,
                        validate func(T) bool)]

    A worker is at one of four places of its code: at the receive of
    [for item := range in], holding an item that [validate] is about to
    judge, at the send [out <- valid], or past the loop.  Its moves are
    labelled by what happens on its two channels.  The [Printf] calls are
    not modelled. *)

Inductive wstate (T : Type) : Type :=
| WRecv                    (* blocked in [range in] *)
| WGot (item : T)          (* [item] received, before [validate(item)] *)
| WSend (valid : bool)     (* blocked in [out <- valid] *)
| WDone.                   (* left the loop: "Finished!" *)
Arguments WRecv {T}.
Arguments WGot {T} item.
Arguments WSend {T} valid.
Arguments WDone {T}.

Inductive wlabel (T : Type) : Type :=
| LRecv (item : T)         (* [in] delivers [item] *)
| LClosed                  (* [in] is closed and empty: the range ends *)
| LValidate                (* [valid := validate(item)] *)
| LSend (valid : bool).    (* [out] takes [valid] *)
Arguments LRecv {T} item.
Arguments LClosed {T}.
Arguments LValidate {T}.
Arguments LSend {T} valid.

Section Worker.
Context {T : Type} (validate : T → bool).

Definition worker (st : wstate T) (l : wlabel T) : option (wstate T) :=
  match st, l with
  | WRecv, LRecv item => Some (WGot item)
  | WRecv, LClosed => Some WDone
  | WGot item, LValidate => Some (WSend (validate item))
  | WSend valid, LSend b => if bool_decide (valid = b) then Some WRecv else None
  | _, _ => None
  end.

(** A worker's life from state [st] along the labels [tr]. *)
Fixpoint worker_run (st : wstate T) (tr : list (wlabel T)) : option (wstate T) :=
  match tr with
  | [] => Some st
  | l :: tr' => st' ← worker st l; worker_run st' tr'
  end.

(** Items taken from [in] and verdicts put on [out], in order. *)
Fixpoint received (tr : list (wlabel T)) : list T :=
  match tr with
  | [] => []
  | LRecv item :: tr' => item :: received tr'
  | _ :: tr' => received tr'
  end.

Fixpoint sent (tr : list (wlabel T)) : list bool :=
  match tr with
  | [] => []
  | LSend valid :: tr' => valid :: sent tr'
  | _ :: tr' => sent tr'
  end.

(** What the labels of a run say about the place the worker is at. *)
Definition worker_log (tr : list (wlabel T)) (st : wstate T) : Prop :=
  match st with
  | WRecv => sent tr = map validate (received tr) ∧ LClosed ∉ tr
  | WGot item =>
      ∃ r, received tr = r ++ [item] ∧ sent tr = map validate r ∧ LClosed ∉ tr
  | WSend valid =>
      ∃ r item, received tr = r ++ [item] ∧ sent tr = map validate r ∧
                valid = validate item ∧ LClosed ∉ tr
  | WDone =>
      sent tr = map validate (received tr) ∧ ∃ tr', tr = tr' ++ [LClosed] ∧ LClosed ∉ tr'
  end.

End Worker.

(** ** Package [main]: the coordinator and the pool

    The part of [main] that runs one pipeline: spawn [NUM_WORKERS] workers,
    drain the stack through the two unbuffered channels, close the input
    channel.  [main] does this twice, for [int] and for [string], with the
    same statements; the model is generic in the item type and takes the
    validation function and the number of workers [W] as parameters
    ([NUM_WORKERS] is 3 in the source).

    The loop counter of the spawn loop and [num_valid] are [int]s.  The
    counter stays between 1 and [W + 1] ([inv_pool] below), which is an
    [int] for every pool size below the largest [int], and [num_valid]
    never exceeds the number of items ([num_valid_bounds] below), which is
    the length of a slice.  Neither leaves the range of [int], and their
    arithmetic is written without wrap-around. *)

Inductive cstate (T : Type) : Type :=
| CSpawn (i : Z)           (* at the test [i <= NUM_WORKERS] of the spawn loop *)
| CLoop                    (* at the test [!stack.IsEmpty()] *)
| CSend (item : T)         (* blocked in [ch_in <- item] *)
| CRecv                    (* blocked in [<-ch_out] *)
| CClose                   (* before [close(ch_in)] *)
| CDone                    (* after [close(ch_in)]: the count is reported *)
| CPanic.                  (* run-time panic in the coordinator *)
Arguments CSpawn {T} i.
Arguments CLoop {T}.
Arguments CSend {T} item.
Arguments CRecv {T}.
Arguments CClose {T}.
Arguments CDone {T}.
Arguments CPanic {T}.

Record state (T : Type) : Type := mkState {
  pc : cstate T;                       (* where the coordinator is *)
  stk : stack.Stack T;                 (* [stack_int] / [stack_str] *)
  num_valid : Z;                       (* [num_valid_int] / [num_valid_str] *)
  in_closed : bool;                    (* [ch_in] has been closed *)
  workers : list (Z * wstate T)        (* spawned goroutines: id and place *)
}.
Arguments mkState {T}.
Arguments pc {T}.
Arguments stk {T}.
Arguments num_valid {T}.
Arguments in_closed {T}.
Arguments workers {T}.

(** The goroutine that the scheduler lets move. *)
Inductive goroutine : Type :=
| Main
| Worker (j : nat).        (* the [j]-th spawned worker, from 0 *)

Section Pipeline.
Context {T : Type} `{GoZero T} (validate : T → bool).
Variable W : Z.                      (* [NUM_WORKERS] *)

Definition init (s : stack.Stack T) : state T :=
  mkState (CSpawn 1) s 0 false [].

(** One move of the coordinator.  It cannot move on its own while it is
    blocked on a channel. *)
Definition main_step (s : state T) : option (state T) :=
  match pc s with
  | CSpawn i =>
      if i <=? W
      then Some (mkState (CSpawn (i + 1)) (stk s) (num_valid s) (in_closed s)
                   (workers s ++ [(i, WRecv)]))
      else Some (mkState CLoop (stk s) (num_valid s) (in_closed s) (workers s))
  | CLoop =>
      if negb (stack.IsEmpty (stk s))
      then match stack.Pop (stk s) with
           | Ok ((item, _), stk') =>
               Some (mkState (CSend item) stk' (num_valid s) (in_closed s) (workers s))
           | Panic =>
               Some (mkState CPanic (stk s) (num_valid s) (in_closed s) (workers s))
           end
      else Some (mkState CClose (stk s) (num_valid s) (in_closed s) (workers s))
  | CClose => Some (mkState CDone (stk s) (num_valid s) true (workers s))
  | CSend _ | CRecv | CDone | CPanic => None
  end.

(** One move of the [j]-th worker.  The channels are unbuffered: a
    receive pairs with the coordinator's pending send, a send with the
    coordinator's pending receive, and both sides move together. *)
Definition worker_step (j : nat) (s : state T) : option (state T) :=
  match workers s !! j with
  | None => None
  | Some (id, WRecv) =>
      match pc s with
      | CSend item =>
          st' ← worker validate WRecv (LRecv item);
          Some (mkState CRecv (stk s) (num_valid s) (in_closed s)
                  (<[j := (id, st')]> (workers s)))
      | _ =>
          if in_closed s
          then st' ← worker validate WRecv LClosed;
               Some (mkState (pc s) (stk s) (num_valid s) (in_closed s)
                       (<[j := (id, st')]> (workers s)))
          else None
      end
  | Some (id, WGot item) =>
      st' ← worker validate (WGot item) LValidate;
      Some (mkState (pc s) (stk s) (num_valid s) (in_closed s)
              (<[j := (id, st')]> (workers s)))
  | Some (id, WSend valid) =>
      match pc s with
      | CRecv =>
          st' ← worker validate (WSend valid) (LSend valid);
          Some (mkState CLoop (stk s)
                  (if valid then num_valid s + 1 else num_valid s)
                  (in_closed s) (<[j := (id, st')]> (workers s)))
      | _ => None
      end
  | Some (id, WDone) => None
  end.

Definition step (g : goroutine) (s : state T) : option (state T) :=
  match g with
  | Main => main_step s
  | Worker j => worker_step j s
  end.

(** Run a schedule; [None] when it picks a goroutine that cannot move. *)
Fixpoint exec (sched : list goroutine) (s : state T) : option (state T) :=
  match sched with
  | [] => Some s
  | g :: sched' => s' ← step g s; exec sched' s'
  end.

(** No goroutine can move. *)
Definition stuck (s : state T) : Prop := ∀ g, step g s = None.

(** The coordinator has reported and every worker has left its loop. *)
Definition terminated (s : state T) : Prop :=
  pc s = CDone ∧ Forall (λ w, w.2 = WDone) (workers s).

(** Number of items that pass the validation. *)
Definition count_valid (xs : list T) : Z := len (List.filter validate xs).

(** *** Quantities of the correctness argument *)

Fixpoint sumw (f : wstate T → Z) (ws : list (Z * wstate T)) : Z :=
  match ws with
  | [] => 0
  | w :: ws' => f w.2 + sumw f ws'
  end.

Definition idle (st : wstate T) : Z :=
  match st with WRecv => 1 | _ => 0 end.

Definition busy (st : wstate T) : Z :=
  match st with WGot _ | WSend _ => 1 | _ => 0 end.

(** The verdict that a busy worker owes. *)
Definition owed (st : wstate T) : Z :=
  match st with
  | WGot item => Z.b2z (validate item)
  | WSend valid => Z.b2z valid
  | _ => 0
  end.

(** The verdict of the item that the coordinator is sending. *)
Definition in_hand (c : cstate T) : Z :=
  match c with CSend item => Z.b2z (validate item) | _ => 0 end.

Definition receiving (c : cstate T) : Z :=
  match c with CRecv => 1 | _ => 0 end.

(** Termination measure: every move lowers it. *)
Definition wweight (st : wstate T) : Z :=
  match st with WDone => 0 | WRecv => 1 | WSend _ => 2 | WGot _ => 3 end.

Definition cweight (c : cstate T) (n : Z) : Z :=
  match c with
  | CSpawn i => 2 * Z.max 0 (W + 1 - i) + 5 * n + 3
  | CLoop => 5 * n + 2
  | CSend _ => 5 * n + 6
  | CRecv => 5 * n + 3
  | CClose => 1
  | CDone | CPanic => 0
  end.

Definition weight (s : state T) : Z :=
  cweight (pc s) (len (stack.items (stk s))) + sumw wweight (workers s).

(** The invariant of the pipeline started on the items [xs]. *)
Record inv (xs : list T) (s : state T) : Prop := mkInv {
  inv_count :
    num_valid s + sumw owed (workers s) + in_hand (pc s)
      + count_valid (stack.items (stk s)) = count_valid xs;
  inv_size :
    len (stack.items (stk s)) + (if pc s is CSend _ then 1 else 0) + receiving (pc s)
      ≤ len xs;
  inv_nonneg : 0 ≤ num_valid s;
  inv_busy : sumw busy (workers s) = receiving (pc s);
  inv_open :
    in_closed s = false →
    sumw idle (workers s) + sumw busy (workers s) = len (workers s);
  inv_closed : in_closed s = true ↔ pc s = CDone;
  inv_pool :
    match pc s with
    | CSpawn i => 1 ≤ i ≤ Z.max 0 W + 1 ∧ len (workers s) = i - 1
    | _ => len (workers s) = Z.max 0 W
    end;
  inv_empty : pc s = CClose ∨ pc s = CDone → stack.items (stk s) = [];
  inv_safe : pc s ≠ CPanic
}.
End Pipeline.

(** ** Channel traffic

    What passes over the two channels during a run: an item each time a
    worker takes the coordinator's send on the input channel, a verdict each
    time the coordinator takes a worker's send on the output channel. *)

Inductive event (T : Type) : Type :=
| EvItem (item : T)        (* [ch_in] hands [item] to a worker *)
| EvVerdict (valid : bool). (* [ch_out] hands [valid] to the coordinator *)
Arguments EvItem {T} item.
Arguments EvVerdict {T} valid.

Section Traffic.
Context {T : Type} `{GoZero T} (validate : T → bool).
Variable W : Z.

(** The communication of the move of [g] in [s], if that move is one. *)
Definition emits (g : goroutine) (s : state T) : list (event T) :=
  match g with
  | Main => []
  | Worker j =>
      match workers s !! j with
      | Some (_, WRecv) =>
          match pc s with CSend item => [EvItem item] | _ => [] end
      | Some (_, WSend valid) =>
          match pc s with CRecv => [EvVerdict valid] | _ => [] end
      | _ => []
      end
  end.

Fixpoint traffic (sched : list goroutine) (s : state T) : list (event T) :=
  match sched with
  | [] => []
  | g :: sched' =>
      match step validate W g s with
      | Some s' => emits g s ++ traffic sched' s'
      | None => []
      end
  end.

(** One item and its verdict after the other. *)
Fixpoint rounds (xs : list T) : list (event T) :=
  match xs with
  | [] => []
  | x :: xs' => EvItem x :: EvVerdict (validate x) :: rounds xs'
  end.

(** A worker that is not idle works on the item [x]. *)
Definition serving (x : T) (st : wstate T) : Prop :=
  match st with
  | WGot item => item = x
  | WSend valid => valid = validate x
  | _ => True
  end.

(** The traffic [tr] so far against the items [xs] the stack started
    with: the items judged, the one under way, and those still to come. *)
Definition traffic_inv (xs : list T) (tr : list (event T)) (s : state T) : Prop :=
  ∃ judged,
    num_valid s = count_valid validate judged ∧
    match pc s with
    | CRecv =>
        ∃ x, reverse xs = judged ++ x :: reverse (stack.items (stk s)) ∧
             tr = rounds judged ++ [EvItem x] ∧
             Forall (λ w, serving x w.2) (workers s)
    | CSend x =>
        reverse xs = judged ++ x :: reverse (stack.items (stk s)) ∧
        tr = rounds judged
    | _ =>
        reverse xs = judged ++ reverse (stack.items (stk s)) ∧
        tr = rounds judged
    end.
End Traffic.

(** ** The runs of [main] *)

(** [validate_int := func(n int) bool { return n%2 == 0 }]; Go's [%]
    truncates towards zero, as [Z.rem] does. *)
Definition validate_int (n : Z) : bool := Z.rem n 2 =? 0.

Definition NUM_WORKERS : Z := 3.
Definition NUM_INTS : Z := 20.

(** A schedule of the pool of three on a stack of four items: the spawn
    loop, then for every item the coordinator's pop and send and the three
    moves of the worker that takes it (workers 0, 1, 2 and 0 again), then
    the close and the exit of the three workers. *)
Definition demo_sched : list goroutine :=
  [Main; Main; Main; Main;
   Main; Worker 0; Worker 0; Worker 0;
   Main; Worker 1; Worker 1; Worker 1;
   Main; Worker 2; Worker 2; Worker 2;
   Main; Worker 0; Worker 0; Worker 0;
   Main; Main; Worker 0; Worker 1; Worker 2].

Definition demo_final : state Z :=
  mkState CDone (stack.mkStack []) 2 true [(1, WDone); (2, WDone); (3, WDone)].

(** [for i := 0; i <= NUM_INTS; i++ { stack_int.Push(5 + i*7) }] *)
Definition stack_int : stack.Stack Z :=
  push_all (map (λ i, 5 + i * 7) (seqZ 0 (NUM_INTS + 1))) stack.New.

(** The second run of [main], on strings.  [strings.Contains(s, substr)]
    of the Go standard library reports whether [substr] occurs within [s];
    a Go string is a sequence of bytes, as a [string] here. *)
Fixpoint has_prefix (s p : string) : bool :=
  match p, s with
  | EmptyString, _ => true
  | String b p', String a s' => bool_decide (a = b) && has_prefix s' p'
  | String _ _, EmptyString => false
  end.

Fixpoint Contains (s substr : string) : bool :=
  has_prefix s substr ||
  match s with
  | EmptyString => false
  | String _ s' => Contains s' substr
  end.

(** [validate_str := func(s string) bool { return strings.Contains(s, "World") }] *)
Definition validate_str (s : string) : bool := Contains s "World".

(** [stack_str.Push("Hello World")], [Push("Generics")], [Push("World Wide Web")] *)
Definition stack_str : stack.Stack string :=
  push_all ["Hello World"; "Generics"; "World Wide Web"]%string stack.New.

(** ** [SliceFn] of the package documentation

    [type SliceFn[T any] struct { s []T; less func(T, T) bool }] *)

Module slicefn.

Record SliceFn (T : Type) : Type := mkSliceFn {
  s : list T;
  less : T → T → bool
}.
Arguments mkSliceFn {T} s less.
Arguments s {T}.
Arguments less {T}.

(** [func (s SliceFn[T]) Swap(i, j int) { s.s[i], s.s[j] = s.s[j], s.s[i] }]

    Go evaluates the two right-hand sides first, [s.s[j]] then [s.s[i]],
    and panics there when an index is out of range; then it assigns from
    left to right.  The receiver is a copy, but its slice shares the
    elements with the caller's, so the caller sees the slice returned
    here. *)
Definition Swap {T : Type} (f : SliceFn T) (i j : Z) : result (SliceFn T) :=
  xj ← slice_index (s f) j;
  xi ← slice_index (s f) i;
  Ok (mkSliceFn (<[Z.to_nat j := xi]> (<[Z.to_nat i := xj]> (s f))) (less f)).

End slicefn.

(** ** Slice facts *)

Section SliceFacts.
Context {T : Type}.
Implicit Types (s : list T) (x : T).

Lemma len_nil : len (@nil T) = 0.
Proof. reflexivity. Qed.

Lemma len_append s x : len (append s x) = len s + 1.
Proof. unfold len, append. rewrite length_app. simpl. lia. Qed.

Lemma len_cons s x : len (x :: s) = len s + 1.
Proof. unfold len. simpl. lia. Qed.

Lemma len_nonneg s : 0 <= len s.
Proof. unfold len. lia. Qed.

Lemma slice_index_last s x : slice_index (append s x) (len (append s x) - 1) = Ok x.
Proof.
  unfold slice_index. rewrite len_append.
  pose proof (len_nonneg s) as Hs.
  replace (len s + 1 - 1) with (len s) by lia.
  destruct (Z.leb_spec 0 (len s)); [|lia].
  destruct (Z.ltb_spec (len s) (len s + 1)); [|lia].
  simpl. unfold len, append. rewrite Nat2Z.id.
  rewrite lookup_app_r by lia. by rewrite Nat.sub_diag.
Qed.

Lemma slice_sub_init s x : slice_sub (append s x) 0 (len (append s x) - 1) = Ok s.
Proof.
  unfold slice_sub. rewrite len_append.
  pose proof (len_nonneg s) as Hs.
  replace (len s + 1 - 1) with (len s) by lia.
  destruct (Z.leb_spec 0 0); [|lia].
  destruct (Z.leb_spec 0 (len s)); [|lia].
  destruct (Z.leb_spec (len s) (len s + 1)); [|lia].
  simpl. rewrite Z.sub_0_r. unfold len, append. rewrite Nat2Z.id.
  change (Z.to_nat 0) with 0%nat. rewrite drop_0. by rewrite take_app_length.
Qed.

Lemma slice_index_head s x : slice_index (x :: s) 0 = Ok x.
Proof.
  unfold slice_index. rewrite len_cons.
  pose proof (len_nonneg s) as Hs.
  destruct (Z.ltb_spec 0 (len s + 1)); [|lia]. reflexivity.
Qed.

Lemma slice_sub_tail s x : slice_sub (x :: s) 1 (len (x :: s)) = Ok s.
Proof.
  unfold slice_sub. rewrite len_cons.
  pose proof (len_nonneg s) as Hs.
  destruct (Z.leb_spec 1 (len s + 1)); [|lia].
  destruct (Z.leb_spec (len s + 1) (len s + 1)); [|lia].
  simpl. replace (len s + 1 - 1) with (len s) by lia.
  unfold len. rewrite Nat2Z.id. change (Z.to_nat 1) with 1%nat.
  simpl. by rewrite take_ge.
Qed.

Lemma len_zero_nil s : (len s =? 0) = true → s = [].
Proof.
  intros Hz. apply Z.eqb_eq in Hz. unfold len in Hz.
  destruct s; [done | simpl in Hz; lia].
Qed.

Lemma len_append_nonzero s x : (len (append s x) =? 0) = false.
Proof. rewrite len_append. pose proof (len_nonneg s). apply Z.eqb_neq. lia. Qed.

Lemma len_cons_nonzero s x : (len (x :: s) =? 0) = false.
Proof. rewrite len_cons. pose proof (len_nonneg s). apply Z.eqb_neq. lia. Qed.

(** Every non-empty slice is an [append]. *)
Lemma snoc_cases s : s = [] ∨ ∃ s' x, s = append s' x.
Proof.
  destruct (decide (s = [])) as [->|Hne]; [by left|right].
  destruct (exists_last (l:=s)) as (s' & x & ->); [done|]. by exists s', x.
Qed.
End SliceFacts.

(** ** The containers *)

Section StackFacts.
Context {T : Type} `{GoZero T}.
Implicit Types (s : list T) (x : T).

Lemma Pop_nil : stack.Pop (stack.mkStack (@nil T)) = Ok ((zero_value, false), stack.mkStack []).
Proof. reflexivity. Qed.

Lemma Pop_append s x :
  stack.Pop (stack.mkStack (append s x)) = Ok ((x, true), stack.mkStack s).
Proof.
  unfold stack.Pop. cbn [stack.items].
  rewrite len_append_nonzero, slice_index_last. cbn.
  by rewrite slice_sub_init.
Qed.

Lemma stack_Peek_nil :
  stack.Peek (stack.mkStack (@nil T)) = Ok ((zero_value, false), stack.mkStack []).
Proof. reflexivity. Qed.

Lemma stack_Peek_append s x :
  stack.Peek (stack.mkStack (append s x)) = Ok ((x, true), stack.mkStack (append s x)).
Proof.
  unfold stack.Peek. cbn [stack.items].
  by rewrite len_append_nonzero, slice_index_last.
Qed.

Lemma push_all_items xs s :
  push_all xs (stack.mkStack s) = stack.mkStack (s ++ xs).
Proof.
  revert s. induction xs as [|x xs IH]; intros s; cbn.
  - by rewrite app_nil_r.
  - unfold push_all in IH. unfold stack.Push at 2. cbn [stack.items].
    rewrite IH. unfold append. by rewrite <- app_assoc.
Qed.

(** [drain_stack] unfolds to one call of [Pop] and the rest of the drain. *)
Lemma drain_stack_step (st : stack.Stack T) :
  drain_stack st =
    match stack.Pop st with
    | Panic => Panic
    | Ok ((_, false), _) => Ok []
    | Ok ((item, true), st') =>
        match drain_stack st' with
        | Ok rest => Ok (item :: rest)
        | Panic => Panic
        end
    end.
Proof.
  funelim (drain_stack st).
  all: match goal with E : stack.Pop _ = _ |- _ => rewrite E end.
  all: reflexivity.
Qed.

Lemma drain_stack_items s : drain_stack (stack.mkStack s) = Ok (reverse s).
Proof.
  induction s as [|x s IH] using rev_ind.
  - by rewrite drain_stack_step, Pop_nil.
  - rewrite drain_stack_step. change (s ++ [x]) with (append s x).
    rewrite Pop_append, IH. unfold append. by rewrite reverse_snoc.
Qed.
End StackFacts.

Section QueueFacts.
Context {T : Type} `{GoZero T}.
Implicit Types (s : list T) (x : T).

Lemma Next_nil : queue.Next (queue.mkQueue (@nil T)) = Ok ((zero_value, false), queue.mkQueue []).
Proof. reflexivity. Qed.

Lemma Next_cons s x :
  queue.Next (queue.mkQueue (x :: s)) = Ok ((x, true), queue.mkQueue s).
Proof.
  unfold queue.Next. cbn [queue.items].
  rewrite len_cons_nonzero, slice_index_head. cbn.
  by rewrite slice_sub_tail.
Qed.

Lemma queue_Peek_nil :
  queue.Peek (queue.mkQueue (@nil T)) = Ok ((zero_value, false), queue.mkQueue []).
Proof. reflexivity. Qed.

Lemma queue_Peek_cons s x :
  queue.Peek (queue.mkQueue (x :: s)) = Ok ((x, true), queue.mkQueue (x :: s)).
Proof.
  unfold queue.Peek. cbn [queue.items].
  by rewrite len_cons_nonzero, slice_index_head.
Qed.

Lemma add_all_items xs s :
  add_all xs (queue.mkQueue s) = queue.mkQueue (s ++ xs).
Proof.
  revert s. induction xs as [|x xs IH]; intros s; cbn.
  - by rewrite app_nil_r.
  - unfold add_all in IH. unfold queue.Add at 2. cbn [queue.items].
    rewrite IH. unfold append. by rewrite <- app_assoc.
Qed.

Lemma drain_queue_step (q : queue.Queue T) :
  drain_queue q =
    match queue.Next q with
    | Panic => Panic
    | Ok ((_, false), _) => Ok []
    | Ok ((item, true), q') =>
        match drain_queue q' with
        | Ok rest => Ok (item :: rest)
        | Panic => Panic
        end
    end.
Proof.
  funelim (drain_queue q).
  all: match goal with E : queue.Next _ = _ |- _ => rewrite E end.
  all: reflexivity.
Qed.

Lemma drain_queue_items s : drain_queue (queue.mkQueue s) = Ok s.
Proof.
  induction s as [|x s IH].
  - by rewrite drain_queue_step, Next_nil.
  - by rewrite drain_queue_step, Next_cons, IH.
Qed.
End QueueFacts.

Lemma one_to_S k : one_to (S k) = one_to k ++ [Z.of_nat (S k)].
Proof.
  unfold one_to. rewrite Nat2Z.inj_succ, <- Z.add_1_r, seqZ_app by lia.
  f_equal. change (seqZ (1 + Z.of_nat k) 1) with [Z.of_nat 0 + (1 + Z.of_nat k)].
  f_equal. lia.
Qed.

Lemma reverse_one_to k : reverse (one_to k) = down_from k.
Proof.
  induction k as [|k IH]; [done|].
  rewrite one_to_S, reverse_snoc, IH. reflexivity.
Qed.

(** C2: pushing the items 1, 2, ..., k in that order onto a fresh stack
    and then calling [Pop] until it reports [found = false] yields the items
    in the order k, k-1, ..., 1. *)
Theorem stack_lifo_order (k : nat) :
  drain_stack (push_all (one_to k) stack.New) = Ok (down_from k).
Proof.
  unfold stack.New. rewrite push_all_items, app_nil_l.
  by rewrite drain_stack_items, reverse_one_to.
Qed.

(** C3: adding the items 1, 2, ..., k in that order to a fresh queue and
    then calling [Next] until it reports [found = false] yields the items in
    the order 1, 2, ..., k. *)
Theorem queue_fifo_order (k : nat) :
  drain_queue (add_all (one_to k) queue.New) = Ok (one_to k).
Proof.
  unfold queue.New. rewrite add_all_items, app_nil_l.
  apply drain_queue_items.
Qed.

(** C4: on an empty stack [Pop] and [Peek], and on an empty queue [Next]
    and [Peek], return the zero value of the item type together with
    [found = false] and leave the container as it is; and none of the four
    operations panics, whatever the container holds. *)
Theorem empty_reports_not_found {T : Type} `{GoZero T} :
  (∀ s : stack.Stack T, stack.IsEmpty s = true →
     stack.Pop s = Ok ((zero_value, false), s) ∧
     stack.Peek s = Ok ((zero_value, false), s)) ∧
  (∀ q : queue.Queue T, queue.IsEmpty q = true →
     queue.Next q = Ok ((zero_value, false), q) ∧
     queue.Peek q = Ok ((zero_value, false), q)) ∧
  (∀ s : stack.Stack T, stack.Pop s ≠ Panic ∧ stack.Peek s ≠ Panic) ∧
  (∀ q : queue.Queue T, queue.Next q ≠ Panic ∧ queue.Peek q ≠ Panic).
Proof.
  repeat split.
  - unfold stack.Pop, stack.IsEmpty in *. by destruct (len _ =? 0).
  - unfold stack.Peek, stack.IsEmpty in *. by destruct (len _ =? 0).
  - unfold queue.Next, queue.IsEmpty in *. by destruct (len _ =? 0).
  - unfold queue.Peek, queue.IsEmpty in *. by destruct (len _ =? 0).
  - destruct s as [l]. destruct (snoc_cases l) as [->|(l' & x & ->)].
    + by rewrite Pop_nil.
    + by rewrite Pop_append.
  - destruct s as [l]. destruct (snoc_cases l) as [->|(l' & x & ->)].
    + by rewrite stack_Peek_nil.
    + by rewrite stack_Peek_append.
  - destruct q as [[|x l]].
    + by rewrite Next_nil.
    + by rewrite Next_cons.
  - destruct q as [[|x l]].
    + by rewrite queue_Peek_nil.
    + by rewrite queue_Peek_cons.
Qed.

Lemma empty_reports_not_found_witness :
  stack.IsEmpty (stack.New (T:=Z)) = true ∧
  queue.IsEmpty (queue.New (T:=Z)) = true ∧
  stack.Pop (stack.New (T:=Z)) = Ok ((0, false), stack.New) ∧
  stack.Peek (stack.New (T:=Z)) = Ok ((0, false), stack.New) ∧
  queue.Next (queue.New (T:=Z)) = Ok ((0, false), queue.New) ∧
  queue.Peek (queue.New (T:=Z)) = Ok ((0, false), queue.New).
Proof.
  pose proof (empty_reports_not_found (T:=Z)) as (Hs & Hq & _).
  split; [reflexivity|]. split; [reflexivity|].
  destruct (Hs stack.New) as [Hpop Hpeek]; [reflexivity|].
  destruct (Hq queue.New) as [Hnext Hqpeek]; [reflexivity|].
  repeat split; assumption.
Defined.

(** C5: on every stack, [Peek] returns the pair (item, found) that [Pop]
    returns there and leaves the stack as it is; on every queue, [Peek]
    returns the pair that [Next] returns there and leaves the queue as it
    is. *)
Theorem peek_is_nondestructive_remove {T : Type} `{GoZero T} :
  (∀ s : stack.Stack T, ∃ r s',
     stack.Peek s = Ok (r, s) ∧ stack.Pop s = Ok (r, s')) ∧
  (∀ q : queue.Queue T, ∃ r q',
     queue.Peek q = Ok (r, q) ∧ queue.Next q = Ok (r, q')).
Proof.
  split.
  - intros [l]. destruct (snoc_cases l) as [->|(l' & x & ->)].
    + exists (zero_value, false), (stack.mkStack []). by rewrite stack_Peek_nil, Pop_nil.
    + exists (x, true), (stack.mkStack l'). by rewrite stack_Peek_append, Pop_append.
  - intros [[|x l]].
    + exists (zero_value, false), (queue.mkQueue []). by rewrite queue_Peek_nil, Next_nil.
    + exists (x, true), (queue.mkQueue l). by rewrite queue_Peek_cons, Next_cons.
Qed.

(** C10: inserting one item into an empty container and removing the next
    item returns that item with [found = true] and leaves a container on
    which [IsEmpty] is true, for the stack ([Push], [Pop]) and for the queue
    ([Add], [Next]). *)
Theorem insert_remove_roundtrip {T : Type} `{GoZero T} (x : T) :
  (∃ s', stack.Pop (stack.Push x stack.New) = Ok ((x, true), s') ∧
         stack.IsEmpty s' = true) ∧
  (∃ q', queue.Next (queue.Add x queue.New) = Ok ((x, true), q') ∧
         queue.IsEmpty q' = true).
Proof.
  split.
  - exists (stack.mkStack []). split; [|reflexivity].
    unfold stack.Push, stack.New. cbn [stack.items]. apply Pop_append.
  - exists (queue.mkQueue []). split; [|reflexivity].
    unfold queue.Add, queue.New. cbn [queue.items]. apply (Next_cons []).
Qed.

(** ** The worker *)

Section WorkerFacts.
Context {T : Type} (validate : T → bool).
Implicit Types (st : wstate T) (tr : list (wlabel T)).

Lemma worker_run_app st tr1 tr2 :
  worker_run validate st (tr1 ++ tr2) =
    st' ← worker_run validate st tr1; worker_run validate st' tr2.
Proof.
  revert st. induction tr1 as [|l tr1 IH]; intros st; [done|].
  cbn. destruct (worker validate st l) as [st1|]; cbn; [apply IH|done].
Qed.

Lemma received_app tr1 tr2 : received (tr1 ++ tr2) = received tr1 ++ received tr2.
Proof.
  induction tr1 as [|[]]; cbn; congruence.
Qed.

Lemma sent_app tr1 tr2 : sent (tr1 ++ tr2) = sent tr1 ++ sent tr2.
Proof.
  induction tr1 as [|[]]; cbn; congruence.
Qed.

Lemma worker_log_run tr st :
  worker_run validate WRecv tr = Some st → worker_log validate tr st.
Proof.
  revert st. induction tr as [|l tr IH] using rev_ind; intros st Hrun.
  - injection Hrun as <-. cbn. split; [done|]. apply not_elem_of_nil.
  - rewrite worker_run_app in Hrun.
    destruct (worker_run validate WRecv tr) as [st0|]; [|done].
    specialize (IH st0 eq_refl). cbn in Hrun.
    destruct (worker validate st0 l) as [st1|] eqn:Hw; [|done].
    cbn in Hrun. injection Hrun as ->.
    destruct st0, l; cbn in Hw; try discriminate.
    + injection Hw as <-. destruct IH as [Hs Hc]. cbn.
      exists (received tr). rewrite received_app, sent_app. cbn.
      rewrite app_nil_r. repeat split; [done|].
      rewrite elem_of_app, list_elem_of_singleton. by intros [?|?].
    + injection Hw as <-. destruct IH as [Hs Hc]. cbn.
      rewrite received_app, sent_app. cbn. rewrite !app_nil_r.
      split; [done|]. by exists tr.
    + injection Hw as <-. destruct IH as (r & Hr & Hs & Hc). cbn.
      exists r, item. rewrite received_app, sent_app. cbn.
      rewrite !app_nil_r. repeat split; [done..|].
      rewrite elem_of_app, list_elem_of_singleton. by intros [?|?].
    + case_bool_decide; [|done]. injection Hw as <-. subst valid0.
      destruct IH as (r & item & Hr & Hs & -> & Hc). cbn.
      rewrite received_app, sent_app. cbn. rewrite app_nil_r, Hr, Hs.
      rewrite map_app. split; [done|].
      rewrite elem_of_app, list_elem_of_singleton. by intros [?|?].
Qed.
End WorkerFacts.

(** Safety of a worker's run: what it has sent against what it has
    received. *)
Lemma worker_verdicts_follow_items {T : Type} (validate : T → bool)
    (tr : list (wlabel T)) (st : wstate T) :
  worker_run validate WRecv tr = Some st →
  sent tr = map validate (take (length (sent tr)) (received tr)) ∧
  (length (sent tr) ≤ length (received tr) ≤ length (sent tr) + 1)%nat ∧
  (st = WRecv ∨ st = WDone → sent tr = map validate (received tr)) ∧
  (∀ item, st = WGot item → ∃ r, received tr = r ++ [item] ∧ sent tr = map validate r) ∧
  (∀ valid, st = WSend valid → ∃ r item,
     received tr = r ++ [item] ∧ sent tr = map validate r ∧ valid = validate item) ∧
  (LClosed ∈ tr → st = WDone ∧ ∃ tr', tr = tr' ++ [LClosed] ∧ LClosed ∉ tr') ∧
  worker validate WRecv LClosed = Some WDone ∧
  (∀ l, worker validate WDone l = None).
Proof.
  intros Hrun. apply worker_log_run in Hrun.
  assert (Hfull : sent tr = map validate (received tr) →
            sent tr = map validate (take (length (sent tr)) (received tr)) ∧
            (length (sent tr) ≤ length (received tr) ≤ length (sent tr) + 1)%nat).
  { intros Hs. rewrite Hs at 2. rewrite length_map, firstn_all.
    split; [done|]. rewrite Hs, length_map. lia. }
  assert (Hpart : ∀ r item, received tr = r ++ [item] → sent tr = map validate r →
            sent tr = map validate (take (length (sent tr)) (received tr)) ∧
            (length (sent tr) ≤ length (received tr) ≤ length (sent tr) + 1)%nat).
  { intros r item Hr Hs. rewrite Hs at 2. rewrite length_map, Hr, take_app_length.
    split; [done|]. rewrite Hs, length_map, length_app. cbn. lia. }
  destruct st; cbn in Hrun.
  - destruct Hrun as [Hs Hc]. destruct (Hfull Hs) as [H1 H2].
    repeat split; try done; lia.
  - destruct Hrun as (r & Hr & Hs & Hc). destruct (Hpart r item Hr Hs) as [H1 H2].
    repeat split; try done; try lia.
    + by intros [|].
    + intros item' [= <-]. by exists r.
  - destruct Hrun as (r & item & Hr & Hs & Hv & Hc).
    destruct (Hpart r item Hr Hs) as [H1 H2].
    repeat split; try done; try lia.
    + by intros [|].
    + intros valid' [= <-]. by exists r, item.
  - destruct Hrun as (Hs & tr' & Htr & Hc). destruct (Hfull Hs) as [H1 H2].
    repeat split; try done; try lia. by exists tr'.
Qed.

(** The moves a worker can make at each place of its code. *)
Lemma worker_moves {T : Type} (validate : T → bool) (l : wlabel T) (st' : wstate T) :
  (worker validate WRecv l = Some st' ↔
     (∃ item, l = LRecv item ∧ st' = WGot item) ∨ (l = LClosed ∧ st' = WDone)) ∧
  (∀ item, worker validate (WGot item) l = Some st' ↔
     l = LValidate ∧ st' = WSend (validate item)) ∧
  (∀ valid, worker validate (WSend valid) l = Some st' ↔
     l = LSend valid ∧ st' = WRecv).
Proof.
  split; [|split].
  - destruct l; cbn; split; try done.
    + intros [= <-]. left. by exists item.
    + intros [(item' & [= <-] & ->)|[? _]]; done.
    + intros [= <-]. by right.
    + intros [(item' & ? & _)|[_ ->]]; done.
    + intros [(item' & ? & _)|[? _]]; done.
    + intros [(item' & ? & _)|[? _]]; done.
  - intros item. destruct l; cbn; split; try done; try (by intros [? _]).
    + by intros [= <-].
    + by intros [_ ->].
  - intros valid. destruct l as [| | |b]; cbn; split; try done; try (by intros [? _]).
    + case_bool_decide; [|done]. intros [= <-]. by subst.
    + intros [[= <-] ->]. by rewrite bool_decide_true.
Qed.

(** C9: a worker keeps items and verdicts one to one.  Along every run
    the verdicts it has sent are the validator's verdicts of the items it
    has received, one per item and in the same order, and at most the last
    item received is still without its verdict; when the worker waits at
    the receive or has left the loop, every item has its verdict.  The
    worker does produce the verdict: holding an item, its one possible move
    is to validate it, which takes it to the send of the validator's verdict
    for this item; at the send, its one possible move is to hand over just
    this verdict, which takes it back to the receive; so from the receive
    every item offered is taken, validated and answered, which adds the
    validator's verdict for it to the verdicts sent.  At the receive the
    worker takes an item or, when the input channel is closed and empty,
    leaves the loop; leaving is the last thing it does, and a worker that
    has left the loop does nothing more. *)
Theorem worker_one_verdict_per_item {T : Type} (validate : T → bool)
    (tr : list (wlabel T)) (st : wstate T) :
  worker_run validate WRecv tr = Some st →
  sent tr = map validate (take (length (sent tr)) (received tr)) ∧
  (length (sent tr) ≤ length (received tr) ≤ length (sent tr) + 1)%nat ∧
  (st = WRecv ∨ st = WDone → sent tr = map validate (received tr)) ∧
  (∀ item, st = WGot item → ∃ r, received tr = r ++ [item] ∧ sent tr = map validate r) ∧
  (∀ valid, st = WSend valid → ∃ r item,
     received tr = r ++ [item] ∧ sent tr = map validate r ∧ valid = validate item) ∧
  (LClosed ∈ tr → st = WDone ∧ ∃ tr', tr = tr' ++ [LClosed] ∧ LClosed ∉ tr') ∧
  worker validate WRecv LClosed = Some WDone ∧
  (∀ l, worker validate WDone l = None) ∧
  (∀ item l st', st = WGot item →
     (worker validate st l = Some st' ↔ l = LValidate ∧ st' = WSend (validate item))) ∧
  (∀ valid l st', st = WSend valid →
     (worker validate st l = Some st' ↔ l = LSend valid ∧ st' = WRecv)) ∧
  (∀ l st', st = WRecv →
     (worker validate st l = Some st' ↔
        (∃ item, l = LRecv item ∧ st' = WGot item) ∨ (l = LClosed ∧ st' = WDone))) ∧
  (∀ item, st = WRecv →
     worker_run validate WRecv (tr ++ [LRecv item; LValidate; LSend (validate item)])
       = Some WRecv ∧
     received (tr ++ [LRecv item; LValidate; LSend (validate item)])
       = received tr ++ [item] ∧
     sent (tr ++ [LRecv item; LValidate; LSend (validate item)])
       = sent tr ++ [validate item]).
Proof.
  intros Hrun.
  destruct (worker_verdicts_follow_items validate tr st Hrun)
    as (H1 & H2 & H3 & H4 & H5 & H6 & H7 & H8).
  refine (conj H1 (conj H2 (conj H3 (conj H4 (conj H5 (conj H6 (conj H7 (conj H8
            (conj _ (conj _ (conj _ _))))))))))).
  - intros item l st' ->. apply worker_moves.
  - intros valid l st' ->. apply worker_moves.
  - intros l st' ->. apply worker_moves.
  - intros item ->. rewrite worker_run_app, Hrun, received_app, sent_app. cbn.
    by rewrite bool_decide_true.
Qed.

Lemma worker_one_verdict_per_item_witness :
  worker_run validate_int WRecv
    [LRecv 26; LValidate; LSend true; LRecv 19; LValidate; LSend false; LClosed]
    = Some WDone ∧
  sent (T:=Z) [LRecv 26; LValidate; LSend true; LRecv 19; LValidate; LSend false; LClosed]
    = map validate_int [26; 19].
Proof.
  split; [reflexivity|].
  pose proof (worker_one_verdict_per_item validate_int
    [LRecv 26; LValidate; LSend true; LRecv 19; LValidate; LSend false; LClosed]
    WDone eq_refl) as (_ & _ & Hs & _).
  apply Hs. by right.
Defined.

(** ** The pipeline *)

Section PipelineFacts.
Context {T : Type} `{GoZero T} (validate : T → bool) (W : Z).
Implicit Types (s : state T) (ws : list (Z * wstate T)) (xs : list T).

Local Abbreviation count_valid := (count_valid validate).
Local Abbreviation inv := (inv validate W).
Local Abbreviation weight := (weight W).

Lemma sumw_app f ws1 ws2 : sumw f (ws1 ++ ws2) = sumw f ws1 + sumw f ws2.
Proof. induction ws1 as [|w ws1 IH]; cbn; [done|]. rewrite IH. lia. Qed.

Lemma sumw_insert f ws j id st id' st' :
  ws !! j = Some (id, st) →
  sumw f (<[j := (id', st')]> ws) = sumw f ws - f st + f st'.
Proof.
  revert j. induction ws as [|w ws IH]; intros [|j] Hj; try done.
  - injection Hj as ->. cbn. lia.
  - change (sumw f (<[S j := (id', st')]> (w :: ws)))
      with (f w.2 + sumw f (<[j := (id', st')]> ws)).
    rewrite (IH j Hj). cbn. lia.
Qed.

Lemma sumw_le f g ws : (∀ st, f st ≤ g st) → sumw f ws ≤ sumw g ws.
Proof.
  intros Hfg. induction ws as [|w ws IH]; cbn; [done|].
  specialize (Hfg w.2). lia.
Qed.

Lemma sumw_nonneg f ws : (∀ st, 0 ≤ f st) → 0 ≤ sumw f ws.
Proof.
  intros Hf. induction ws as [|w ws IH]; cbn; [done|].
  specialize (Hf w.2). lia.
Qed.

Lemma sumw_pos f ws :
  0 < sumw f ws → ∃ j id st, ws !! j = Some (id, st) ∧ 0 < f st.
Proof.
  induction ws as [|[id st] ws IH]; cbn; [lia|]. intros Hpos.
  destruct (Z.ltb_spec 0 (f st)) as [Hf|Hf].
  - by exists 0%nat, id, st.
  - destruct IH as (j & id' & st' & Hj & Hf'); [lia|].
    by exists (S j), id', st'.
Qed.

Lemma sumw_lookup_le f ws j id st :
  (∀ st, 0 ≤ f st) → ws !! j = Some (id, st) → f st ≤ sumw f ws.
Proof.
  intros Hf. revert j. induction ws as [|w ws IH]; intros [|j] Hj; try done; cbn in *.
  - injection Hj as ->. cbn. pose proof (sumw_nonneg f ws Hf). lia.
  - specialize (IH j Hj). specialize (Hf w.2). lia.
Qed.

Lemma busy_nonneg (st : wstate T) : 0 ≤ busy st.
Proof. destruct st; cbn; lia. Qed.

Lemma owed_range (st : wstate T) : 0 ≤ owed validate st ≤ busy st.
Proof. destruct st as [|item|[]|]; cbn; try lia. destruct (validate item); cbn; lia. Qed.

Lemma wweight_nonneg (st : wstate T) : 0 ≤ wweight st.
Proof. destruct st; cbn; lia. Qed.

Lemma count_valid_cons x xs :
  count_valid (x :: xs) = Z.b2z (validate x) + count_valid xs.
Proof.
  unfold count_valid. cbn. destruct (validate x); cbn; [|lia].
  rewrite len_cons. lia.
Qed.

Lemma count_valid_app xs ys : count_valid (xs ++ ys) = count_valid xs + count_valid ys.
Proof.
  induction xs as [|x xs IH]; [done|].
  rewrite <- app_comm_cons, !count_valid_cons, IH. lia.
Qed.

Lemma count_valid_snoc xs x :
  count_valid (append xs x) = count_valid xs + Z.b2z (validate x).
Proof.
  unfold append. rewrite count_valid_app, count_valid_cons.
  change (count_valid []) with 0. lia.
Qed.

Lemma count_valid_range xs : 0 ≤ count_valid xs ≤ len xs.
Proof.
  induction xs as [|x xs IH]; [done|].
  rewrite count_valid_cons, len_cons. destruct (validate x); cbn; lia.
Qed.

(** The loop test and [Pop] on the two shapes of a stack. *)
Lemma Pop_cases (st : stack.Stack T) :
  (stack.IsEmpty st = true ∧ stack.items st = []) ∨
  (∃ l x, stack.IsEmpty st = false ∧ stack.items st = l ++ [x] ∧
          stack.Pop st = Ok ((x, true), stack.mkStack l)).
Proof.
  destruct st as [l]. destruct (snoc_cases l) as [->|(l' & x & ->)].
  - by left.
  - right. exists l', x. unfold stack.IsEmpty. cbn [stack.items].
    by rewrite len_append_nonzero, Pop_append.
Qed.

(** Case analysis of one move: the state is split into its fields and
    every [match] of the step function is decided. *)
Ltac step_cases Hstep :=
  match type of Hstep with
  | step _ _ ?g ?s = Some _ =>
      destruct s as [c st n cl ws]; destruct g as [|j]; destruct c;
      unfold step, main_step, worker_step in Hstep; cbn in Hstep
  end;
  repeat match type of Hstep with
    | context [stack.IsEmpty ?st] =>
        let l := fresh "l" in let x := fresh "x" in
        let He := fresh "Hempty" in let Hi := fresh "Hitems" in
        let Hp := fresh "Hpop" in
        destruct (Pop_cases st) as [[He Hi]|(l & x & He & Hi & Hp)];
        rewrite He in Hstep; [|rewrite Hp in Hstep]; cbn in Hstep
    | context [?ws !! ?j] =>
        let Hj := fresh "Hj" in
        let id := fresh "id" in let wst := fresh "wst" in
        destruct (ws !! j) as [[id wst]|] eqn:Hj; [destruct wst|]; cbn in Hstep
    | context [?i <=? ?w] => destruct (Z.leb_spec i w); cbn in Hstep
    | context [bool_decide ?P] => rewrite (bool_decide_true P) in Hstep by done; cbn in Hstep
    | context [if ?b then _ else _] => is_var b; destruct b; cbn in Hstep
    end;
  try discriminate Hstep;
  try (injection Hstep as <-).

Lemma weight_nonneg s : 0 ≤ weight s.
Proof.
  unfold weight. pose proof (sumw_nonneg wweight (workers s) wweight_nonneg).
  pose proof (len_nonneg (stack.items (stk s))).
  destruct (pc s); cbn; lia.
Qed.

Lemma weight_step g s s' : step validate W g s = Some s' → weight s' < weight s.
Proof.
  intros Hstep. step_cases Hstep; unfold weight; cbn.
  all: try (erewrite sumw_insert by eassumption; cbn).
  all: try rewrite sumw_app; cbn.
  all: try match goal with Hi : stack.items _ = _ |- _ => rewrite Hi end.
  all: try change (l ++ [x]) with (append l x).
  all: rewrite ?len_append; try change (len (@nil T)) with 0.
  all: try (pose proof (len_nonneg (stack.items st))).
  all: try (pose proof (len_nonneg l)).
  all: lia.
Qed.

Lemma inv_init xs : inv xs (init (stack.mkStack xs)).
Proof.
  constructor; cbn; try done; try lia.
  - split; [lia|done].
  - by intros [|].
Qed.

Lemma inv_step xs g s s' : inv xs s → step validate W g s = Some s' → inv xs s'.
Proof.
  intros [Hcount Hsize Hnn Hbusy Hopen Hclosed Hpool Hempty Hsafe] Hstep.
  step_cases Hstep; cbn in *.
  all: constructor; cbn.
  all: try (erewrite !sumw_insert by eassumption; cbn).
  all: rewrite ?sumw_app; cbn.
  all: try match goal with Hi : stack.items _ = _ |- _ => rewrite Hi in * end.
  all: try change (l ++ [x]) with (append l x) in *.
  all: rewrite ?len_append, ?count_valid_snoc in *.
  all: unfold len in *; rewrite ?length_insert, ?length_app in *; cbn [length] in *.
  all: try (intros Hcl; specialize (Hopen Hcl)).
  all: try done; try lia.
  all: try (by intros [|]).
  all: try (intuition discriminate).
Qed.

Lemma exec_app sched1 sched2 s :
  exec validate W (sched1 ++ sched2) s =
    s' ← exec validate W sched1 s; exec validate W sched2 s'.
Proof.
  revert s. induction sched1 as [|g sched1 IH]; intros s; [done|].
  cbn. destruct (step validate W g s) as [s1|]; cbn; [apply IH|done].
Qed.

Lemma inv_exec xs sched s s' : inv xs s → exec validate W sched s = Some s' → inv xs s'.
Proof.
  revert s. induction sched as [|g sched IH]; intros s Hinv Hexec; cbn in Hexec.
  - by injection Hexec as <-.
  - destruct (step validate W g s) as [s1|] eqn:Hstep; [|done].
    eapply IH; [|exact Hexec]. eapply inv_step; eassumption.
Qed.

Lemma weight_exec sched s s' :
  exec validate W sched s = Some s' → len sched + weight s' ≤ weight s.
Proof.
  revert s. induction sched as [|g sched IH]; intros s Hexec; cbn in Hexec.
  - injection Hexec as <-. change (len (@nil goroutine)) with 0. lia.
  - destruct (step validate W g s) as [s1|] eqn:Hstep; [|done].
    apply weight_step in Hstep. apply IH in Hexec.
    rewrite len_cons. lia.
Qed.

(** [num_valid] stays within the number of items: its increments cannot
    leave the range of [int]. *)
Lemma num_valid_bounds xs s : inv xs s → 0 ≤ num_valid s ≤ count_valid xs ∧ count_valid xs ≤ len xs.
Proof.
  intros Hinv. destruct Hinv as [Hcount _ Hnn _ _ _ _ _ _].
  pose proof (sumw_nonneg (owed validate) (workers s) (λ st, proj1 (owed_range st))).
  pose proof (count_valid_range (stack.items (stk s))).
  pose proof (count_valid_range xs).
  assert (0 ≤ in_hand validate (pc s)).
  { destruct (pc s) as [| |item| | | |]; cbn; try lia. destruct (validate item); cbn; lia. }
  lia.
Qed.

(** Once the coordinator has closed the channel, its count is final and
    is the number of valid items. *)
Lemma inv_done xs s : inv xs s → pc s = CDone → num_valid s = count_valid xs.
Proof.
  intros [Hcount _ _ Hbusy _ _ _ Hempty _] Hpc.
  rewrite Hpc in *. cbn in *. rewrite Hempty in Hcount by by right.
  pose proof (sumw_nonneg (owed validate) (workers s) (λ st, proj1 (owed_range st))).
  pose proof (sumw_le (owed validate) busy (workers s) (λ st, proj2 (owed_range st))).
  change (count_valid []) with 0 in Hcount. lia.
Qed.

Lemma all_done_or_not ws :
  Forall (λ w, w.2 = WDone) ws ∨
  ∃ j id st, ws !! j = Some (id, st) ∧ st ≠ WDone.
Proof.
  induction ws as [|[id st] ws [IH|(j & id' & st' & Hj & Hst)]].
  - left. constructor.
  - destruct st as [|item|valid|];
      try (right; exists 0%nat, id; eexists; by split).
    left. by constructor.
  - right. by exists (S j), id', st'.
Qed.

(** Deadlock freedom: with at least one worker, some goroutine can move
    until the coordinator has reported and all workers have left. *)
Lemma progress xs s :
  1 ≤ W → inv xs s → terminated s ∨ ∃ g s', step validate W g s = Some s'.
Proof.
  intros HW [Hcount Hsize Hnn Hbusy Hopen Hclosed Hpool Hempty Hsafe].
  destruct s as [c st n cl ws]. cbn in *.
  destruct c as [i| |item| | | |]; cbn in *.
  - right. exists Main. cbn. unfold main_step. cbn. destruct (i <=? W); eauto.
  - right. exists Main. cbn. unfold main_step. cbn.
    destruct (Pop_cases st) as [[-> _]|(l & x & -> & _ & ->)]; cbn; eauto.
  - right. assert (cl = false) as ->.
    { destruct cl; [|done]. by destruct Hclosed as [Hc _]; specialize (Hc eq_refl). }
    specialize (Hopen eq_refl).
    destruct (sumw_pos idle ws) as (j & id & wst & Hj & Hidle); [lia|].
    destruct wst; cbn in Hidle; try lia.
    exists (Worker j). cbn. unfold worker_step. cbn. rewrite Hj. cbn. eauto.
  - right. destruct (sumw_pos busy ws) as (j & id & wst & Hj & Hb); [lia|].
    destruct wst; cbn in Hb; try lia.
    + exists (Worker j). cbn. unfold worker_step. cbn. rewrite Hj. cbn. eauto.
    + exists (Worker j). cbn. unfold worker_step. cbn. rewrite Hj. cbn.
      rewrite bool_decide_true by done. cbn. eauto.
  - right. exists Main. cbn. unfold main_step. cbn. eauto.
  - assert (cl = true) as -> by (by apply Hclosed).
    destruct (all_done_or_not ws) as [Hall|(j & id & wst & Hj & Hne)].
    + left. by split.
    + right. exists (Worker j). cbn. unfold worker_step. cbn. rewrite Hj.
      pose proof (sumw_lookup_le busy ws j id wst busy_nonneg Hj) as Hle.
      destruct wst as [|it|vd|]; cbn in *; eauto; try done; lia.
  - done.
Qed.

(** Every state of a run can be driven to termination. *)
Lemma finish xs s :
  1 ≤ W → inv xs s →
  ∃ sched s', exec validate W sched s = Some s' ∧ terminated s'.
Proof.
  intros HW. remember (Z.to_nat (weight s)) as k eqn:Hk.
  revert s Hk. induction (lt_wf k) as [k _ IH]. intros s Hk Hinv.
  destruct (progress xs s HW Hinv) as [Hterm|(g & s1 & Hstep)].
  - by exists [], s.
  - pose proof (weight_step _ _ _ Hstep) as Hlt.
    pose proof (weight_nonneg s1) as Hge.
    destruct (IH (Z.to_nat (weight s1)) ltac:(lia) s1 eq_refl) as (sched & s' & Hexec & Hterm).
    { eapply inv_step; eassumption. }
    exists (g :: sched), s'. cbn. by rewrite Hstep.
Qed.

Lemma not_busy_all ws :
  sumw busy ws = 0 → Forall (λ w, w.2 = WRecv ∨ w.2 = WDone) ws.
Proof.
  induction ws as [|[id st] ws IH]; cbn; intros Hsum; [constructor|].
  pose proof (sumw_nonneg busy ws busy_nonneg).
  pose proof (busy_nonneg st).
  constructor; [|apply IH; lia].
  destruct st; cbn in *; auto; lia.
Qed.

(** The pipeline on the items [xs] with [W >= 1] workers: every schedule
    is finite, a count that the coordinator reports is the number of valid
    items, no schedule deadlocks, and every schedule can be completed. *)
Lemma run_correct xs sched s :
  1 ≤ W →
  exec validate W sched (init (push_all xs stack.New)) = Some s →
  len sched ≤ 2 * W + 5 * len xs + 3 ∧
  (pc s = CDone → num_valid s = count_valid xs) ∧
  (stuck validate W s → terminated s) ∧
  (∃ sched' s', exec validate W sched' s = Some s' ∧ terminated s' ∧
                num_valid s' = count_valid xs).
Proof.
  intros HW Hexec. unfold stack.New in Hexec.
  rewrite push_all_items, app_nil_l in Hexec.
  pose proof (inv_exec xs _ _ _ (inv_init xs) Hexec) as Hinv.
  split; [|split; [|split]].
  - pose proof (weight_exec _ _ _ Hexec) as Hw. pose proof (weight_nonneg s).
    unfold weight at 2 in Hw. cbn in Hw. lia.
  - by apply inv_done.
  - intros Hstuck. destruct (progress xs s HW Hinv) as [Hterm|(g & s1 & Hstep)]; [done|].
    by rewrite Hstuck in Hstep.
  - destruct (finish xs s HW Hinv) as (sched' & s' & Hexec' & Hterm).
    exists sched', s'. repeat split; try done; try apply Hterm.
    apply (inv_done xs); [|apply Hterm]. eapply inv_exec; eassumption.
Qed.

(** The pipeline on no items. *)
Lemma run_empty sched s :
  exec validate W sched (init stack.New) = Some s →
  num_valid s = 0 ∧ stack.items (stk s) = [] ∧
  (∀ item, pc s ≠ CSend item) ∧ pc s ≠ CRecv ∧
  Forall (λ w, w.2 = WRecv ∨ w.2 = WDone) (workers s) ∧
  (in_closed s = true ↔ pc s = CDone).
Proof.
  intros Hexec.
  pose proof (inv_exec [] _ _ _ (inv_init []) Hexec) as Hinv.
  destruct (num_valid_bounds [] s Hinv) as [Hn Hc].
  destruct Hinv as [Hcount Hsize Hnn Hbusy Hopen Hclosed Hpool Hempty Hsafe].
  change (len (@nil T)) with 0 in *.
  pose proof (len_nonneg (stack.items (stk s))) as Hlen.
  assert (receiving (pc s) = 0) as Hrecv.
  { destruct (pc s); cbn in *; lia. }
  repeat split.
  - lia.
  - apply len_zero_nil. apply Z.eqb_eq. destruct (pc s); cbn in *; lia.
  - intros item Hpc. rewrite Hpc in Hsize. cbn in Hsize. lia.
  - intros Hpc. rewrite Hpc in Hrecv. done.
  - apply not_busy_all. lia.
  - apply Hclosed.
  - apply Hclosed.
Qed.
End PipelineFacts.

(** C1: for every list of items, every validator and every number of
    workers [W >= 1], under every schedule of the coordinator and the
    workers: the schedule is finite, a count that the coordinator reports
    is the number of items that the validator accepts, the run is not
    deadlocked before the coordinator has reported and the workers have
    left, and the schedule can be completed to such an end, where the count
    is again that number. *)
Theorem pipeline_counts_valid_items {T : Type} `{GoZero T}
    (validate : T → bool) (W : Z) (xs : list T) (sched : list goroutine) (s : state T) :
  1 ≤ W →
  exec validate W sched (init (push_all xs stack.New)) = Some s →
  len sched ≤ 2 * W + 5 * len xs + 3 ∧
  (pc s = CDone → num_valid s = count_valid validate xs) ∧
  (stuck validate W s → terminated s) ∧
  (∃ sched' s', exec validate W sched' s = Some s' ∧ terminated s' ∧
                num_valid s' = count_valid validate xs).
Proof. apply run_correct. Qed.

Lemma pipeline_counts_valid_items_witness :
  1 ≤ 3 ∧
  exec validate_int 3 demo_sched (init (push_all [5; 12; 19; 26] stack.New))
    = Some demo_final ∧
  (pc demo_final = CDone →
   num_valid demo_final = count_valid validate_int [5; 12; 19; 26]).
Proof.
  split; [lia|]. split; [reflexivity|].
  apply (pipeline_counts_valid_items validate_int 3 [5; 12; 19; 26]
           demo_sched demo_final); [lia|reflexivity].
Defined.

(** C6: on an empty stack and with [W >= 1] workers, under every schedule:
    the count stays 0, the coordinator never enters the body of the drain
    loop (it never sends an item and never waits for a verdict, and no
    worker ever holds an item), from the loop test it goes straight to
    [close], after which the channel is closed, and the run ends with the
    count 0 reported and all workers gone. *)
Theorem empty_input_returns_zero {T : Type} `{GoZero T}
    (validate : T → bool) (W : Z) (sched : list goroutine) (s : state T) :
  1 ≤ W →
  exec validate W sched (init stack.New) = Some s →
  num_valid s = 0 ∧
  stack.items (stk s) = [] ∧
  (∀ item, pc s ≠ CSend item) ∧ pc s ≠ CRecv ∧
  Forall (λ w, w.2 = WRecv ∨ w.2 = WDone) (workers s) ∧
  (pc s = CLoop →
   step validate W Main s =
     Some (mkState CClose (stk s) (num_valid s) (in_closed s) (workers s))) ∧
  (pc s = CClose →
   step validate W Main s =
     Some (mkState CDone (stk s) (num_valid s) true (workers s))) ∧
  (in_closed s = true ↔ pc s = CDone) ∧
  (stuck validate W s → terminated s) ∧
  (∃ sched' s', exec validate W sched' s = Some s' ∧ terminated s' ∧
                num_valid s' = 0 ∧ in_closed s' = true).
Proof.
  intros HW Hexec.
  destruct (run_empty validate W sched s Hexec) as (Hn & Hst & Hsend & Hrecv & Hws & Hcl).
  destruct (run_correct validate W [] sched s HW Hexec) as (_ & _ & Hstuck & Hfin).
  refine (conj Hn (conj Hst (conj Hsend (conj Hrecv (conj Hws
            (conj _ (conj _ (conj Hcl (conj Hstuck _))))))))).
  - intros Hpc. cbn. unfold main_step. rewrite Hpc.
    destruct (stk s) as [l]. cbn in Hst. by subst l.
  - intros Hpc. cbn. unfold main_step. by rewrite Hpc.
  - destruct Hfin as (sched' & s' & Hexec' & Hterm & Hcount).
    exists sched', s'. split; [done|]. split; [done|]. split; [done|].
    assert (exec validate W (sched ++ sched') (init stack.New) = Some s') as Hall.
    { rewrite exec_app, Hexec. exact Hexec'. }
    apply (run_empty validate W) in Hall as (_ & _ & _ & _ & _ & Hcl').
    apply Hcl', Hterm.
Qed.

Lemma empty_input_returns_zero_witness :
  1 ≤ 3 ∧
  exec validate_int 3 [Main; Main; Main; Main; Main; Main; Worker 1]
    (init stack.New)
    = Some (mkState CDone (stack.mkStack []) 0 true
              [(1, WRecv); (2, WDone); (3, WRecv)]) ∧
  num_valid (mkState CDone (stack.mkStack []) 0 true
               [(1, WRecv); (2, @WDone Z); (3, WRecv)]) = 0.
Proof.
  split; [lia|]. split; [reflexivity|].
  apply (empty_input_returns_zero validate_int 3
           [Main; Main; Main; Main; Main; Main; Worker 1]
           (mkState CDone (stack.mkStack []) 0 true
              [(1, WRecv); (2, WDone); (3, WRecv)])); [lia|reflexivity].
Defined.

(** C8: on the stack on which 5, 12, 19, 26 were pushed in that order,
    with the validation "is even" and three workers, under every schedule:
    a count that the coordinator reports is 2, the run is not deadlocked
    before it has ended, and the schedule can be completed to an end where
    the count is 2. *)
Theorem int_scenario_counts_two (sched : list goroutine) (s : state Z) :
  exec validate_int NUM_WORKERS sched (init (push_all [5; 12; 19; 26] stack.New))
    = Some s →
  (pc s = CDone → num_valid s = 2) ∧
  (stuck validate_int NUM_WORKERS s → terminated s) ∧
  (∃ sched' s', exec validate_int NUM_WORKERS sched' s = Some s' ∧
                terminated s' ∧ num_valid s' = 2).
Proof.
  intros Hexec.
  destruct (run_correct validate_int NUM_WORKERS [5; 12; 19; 26] sched s) as (_ & Hd & Hs & Hf);
    [done|done|].
  change (count_valid validate_int [5; 12; 19; 26]) with 2 in *. done.
Qed.

Lemma int_scenario_counts_two_witness :
  exec validate_int NUM_WORKERS demo_sched (init (push_all [5; 12; 19; 26] stack.New))
    = Some demo_final ∧
  pc demo_final = CDone ∧ num_valid demo_final = 2.
Proof.
  split; [reflexivity|]. split; [reflexivity|].
  apply (int_scenario_counts_two demo_sched demo_final); reflexivity.
Defined.

(** The first run of [main] itself: 21 items, of which 10 are even. *)
Lemma main_int_run (sched : list goroutine) (s : state Z) :
  exec validate_int NUM_WORKERS sched (init stack_int) = Some s →
  pc s = CDone → num_valid s = 10.
Proof.
  intros Hexec Hpc.
  destruct (run_correct validate_int NUM_WORKERS
              (map (λ i, 5 + i * 7) (seqZ 0 (NUM_INTS + 1))) sched s) as (_ & Hd & _);
    [done|done|].
  by rewrite (Hd Hpc).
Qed.

(** ** A pool without workers *)

Section NoWorkers.
Context {T : Type} `{GoZero T} (validate : T → bool) (W : Z).
Hypothesis HW : W ≤ 0.

Lemma no_workers_spawned xs sched s :
  exec validate W sched (init (stack.mkStack xs)) = Some s → workers s = [].
Proof.
  intros Hexec.
  pose proof (inv_exec validate W xs _ _ _ (inv_init validate W xs) Hexec) as Hinv.
  destruct Hinv as [_ _ _ _ _ _ Hpool _ _].
  assert (len (workers s) = 0) as Hlen.
  { destruct (pc s); try lia. }
  destruct (workers s); [done|]. rewrite len_cons in Hlen.
  pose proof (len_nonneg l). lia.
Qed.

Lemma spawn_nothing st : step validate W Main (init st) = Some (mkState CLoop st 0 false []).
Proof.
  cbn. unfold main_step. cbn. destruct (Z.leb_spec 1 W); [lia|done].
Qed.

Lemma worker_absent j c st n cl : step validate W (Worker j) (mkState c st n cl []) = None.
Proof. reflexivity. Qed.

(** With items on the stack the coordinator pops the top one and blocks
    in the first send; these are all the states of the run. *)
Lemma no_workers_states l x sched s :
  exec validate W sched (init (stack.mkStack (l ++ [x]))) = Some s →
  s = init (stack.mkStack (l ++ [x])) ∨
  s = mkState CLoop (stack.mkStack (l ++ [x])) 0 false [] ∨
  s = mkState (CSend x) (stack.mkStack l) 0 false [].
Proof.
  intros Hexec.
  destruct sched as [|g1 sched]; cbn in Hexec; [left; congruence|].
  destruct g1; [|done]. rewrite spawn_nothing in Hexec.
  destruct sched as [|g2 sched]; cbn in Hexec; [right; left; congruence|].
  destruct g2; [|done]. cbn in Hexec. unfold main_step in Hexec. cbn in Hexec.
  change (l ++ [x]) with (append l x) in Hexec.
  unfold stack.IsEmpty in Hexec. cbn [stack.items] in Hexec.
  rewrite len_append_nonzero, Pop_append in Hexec. cbn in Hexec.
  destruct sched as [|g3 sched]; cbn in Hexec; [right; right; congruence|].
  by destruct g3.
Qed.
End NoWorkers.

(** C7, the claim fails: with a worker count of 0 and the single item 5 the
    coordinator rejects nothing; it leaves the spawn loop without a worker,
    pops the item and is blocked in the first send, where no goroutine can
    move any more. *)
Lemma zero_workers_deadlock :
  exec validate_int 0 [Main; Main] (init (push_all [5] stack.New))
    = Some (mkState (CSend 5) (stack.mkStack []) 0 false []) ∧
  stuck validate_int 0 (mkState (CSend 5) (stack.mkStack []) 0 false []).
Proof.
  split; [reflexivity|]. intros [|j]; reflexivity.
Qed.

(** C7, as the code has it: a worker count [W <= 0] is not rejected.  The
    coordinator spawns no worker under any schedule.  When the stack holds
    items, it pops the top item and blocks in the first send, no goroutine
    can move there, and no schedule reaches the report of a count.  When the
    stack is empty, it closes the channel and reports 0. *)
Theorem nonpositive_pool_not_rejected {T : Type} `{GoZero T}
    (validate : T → bool) (W : Z) (xs : list T) :
  W ≤ 0 →
  (∀ sched s, exec validate W sched (init (push_all xs stack.New)) = Some s →
     workers s = []) ∧
  (∀ l x, xs = l ++ [x] →
     exec validate W [Main; Main] (init (push_all xs stack.New))
       = Some (mkState (CSend x) (stack.mkStack l) 0 false []) ∧
     stuck validate W (mkState (CSend x) (stack.mkStack l) 0 false []) ∧
     ∀ sched s, exec validate W sched (init (push_all xs stack.New)) = Some s →
       pc s ≠ CDone ∧ pc s ≠ CPanic) ∧
  (xs = [] →
     exec validate W [Main; Main; Main] (init (push_all xs stack.New))
       = Some (mkState CDone (stack.mkStack []) 0 true [])).
Proof.
  intros HW. unfold stack.New. rewrite push_all_items, app_nil_l.
  split; [|split].
  - intros sched s. by apply no_workers_spawned.
  - intros l x ->. split; [|split].
    + cbn [exec]. rewrite spawn_nothing by done. cbn. unfold main_step. cbn.
      change (l ++ [x]) with (append l x).
      unfold stack.IsEmpty. cbn [stack.items].
      by rewrite len_append_nonzero, Pop_append.
    + intros [|j]; reflexivity.
    + intros sched s Hexec.
      destruct (no_workers_states validate W HW l x sched s Hexec) as [-> | [-> | ->]]; done.
  - intros ->. cbn [exec]. rewrite spawn_nothing by done. reflexivity.
Qed.

Lemma nonpositive_pool_not_rejected_witness :
  0 ≤ 0 ∧
  exec validate_int 0 [Main; Main] (init (push_all [12; 5] stack.New))
    = Some (mkState (CSend 5) (stack.mkStack [12]) 0 false []).
Proof.
  split; [lia|].
  destruct (nonpositive_pool_not_rejected validate_int 0 [12; 5]) as (_ & Hne & _);
    [lia|].
  destruct (Hne [12] 5 eq_refl) as (Hrun & _). exact Hrun.
Defined.

(** ** Further properties of the containers *)

(** X1: on every stack, [Push] followed by [Pop] returns the pushed item
    with [found = true] and gives back the stack as it was before the
    [Push]; [Peek] after [Push] returns the pushed item too, and the stack is
    not empty. *)
Theorem stack_pop_undoes_push {T : Type} `{GoZero T} (x : T) (s : stack.Stack T) :
  stack.Pop (stack.Push x s) = Ok ((x, true), s) ∧
  stack.Peek (stack.Push x s) = Ok ((x, true), stack.Push x s) ∧
  stack.IsEmpty (stack.Push x s) = false.
Proof.
  destruct s as [l]. unfold stack.Push. cbn [stack.items].
  split; [apply Pop_append|]. split; [apply stack_Peek_append|].
  unfold stack.IsEmpty. cbn [stack.items]. apply len_append_nonzero.
Qed.

(** X2: on a queue that is not empty, [Add] does not change what comes out
    next: [Next] after [Add] returns the item that [Next] returns before
    it, and the two operations commute; [Peek] after [Add] shows the same
    head. *)
Theorem queue_add_keeps_head {T : Type} `{GoZero T} (x : T) (q : queue.Queue T) :
  queue.IsEmpty q = false →
  ∃ y q',
    queue.Next q = Ok ((y, true), q') ∧
    queue.Next (queue.Add x q) = Ok ((y, true), queue.Add x q') ∧
    queue.Peek (queue.Add x q) = Ok ((y, true), queue.Add x q).
Proof.
  destruct q as [[|y l]]; [discriminate|]. intros _.
  exists y, (queue.mkQueue l). unfold queue.Add, append. cbn [queue.items].
  rewrite <- app_comm_cons. by rewrite !Next_cons, queue_Peek_cons.
Qed.

Lemma queue_add_keeps_head_witness :
  queue.IsEmpty (queue.Add 7 queue.New) = false ∧
  queue.Next (queue.Add 9 (queue.Add 7 queue.New))
    = Ok ((7, true), queue.Add 9 queue.New).
Proof.
  split; [reflexivity|].
  destruct (queue_add_keeps_head 9 (queue.Add 7 queue.New) eq_refl)
    as (y & q' & Hnext & Hadd & _).
  rewrite Hadd. cbn in Hnext. injection Hnext as <- <-. reflexivity.
Defined.

(** X3: the [found] flag of [Pop], [Next] and of both [Peek]s is the
    negation of [IsEmpty], and a remove-next takes exactly one item when it
    finds one and none otherwise. *)
Theorem found_iff_not_empty {T : Type} `{GoZero T} :
  (∀ s : stack.Stack T, ∃ x y s',
     stack.Pop s = Ok ((x, negb (stack.IsEmpty s)), s') ∧
     stack.Peek s = Ok ((y, negb (stack.IsEmpty s)), s) ∧
     len (stack.items s') = len (stack.items s) - Z.b2z (negb (stack.IsEmpty s))) ∧
  (∀ q : queue.Queue T, ∃ x y q',
     queue.Next q = Ok ((x, negb (queue.IsEmpty q)), q') ∧
     queue.Peek q = Ok ((y, negb (queue.IsEmpty q)), q) ∧
     len (queue.items q') = len (queue.items q) - Z.b2z (negb (queue.IsEmpty q))).
Proof.
  split.
  - intros [l]. destruct (snoc_cases l) as [->|(l' & x & ->)].
    + exists zero_value, zero_value, (stack.mkStack []). by rewrite Pop_nil, stack_Peek_nil.
    + exists x, x, (stack.mkStack l'). rewrite Pop_append, stack_Peek_append.
      unfold stack.IsEmpty. cbn [stack.items]. rewrite len_append_nonzero, len_append.
      repeat split. cbn. lia.
  - intros [[|x l]].
    + exists zero_value, zero_value, (queue.mkQueue []). by rewrite Next_nil, queue_Peek_nil.
    + exists x, x, (queue.mkQueue l). rewrite Next_cons, queue_Peek_cons.
      unfold queue.IsEmpty. cbn [queue.items]. rewrite len_cons_nonzero, len_cons.
      repeat split. cbn. lia.
Qed.

(** X4: pushing any items onto any stack and draining it with [Pop] yields
    the pushed items, last pushed first, followed by the items the stack held
    before, last first; the drain does not panic. *)
Theorem stack_lifo_general {T : Type} `{GoZero T} (xs : list T) (s : stack.Stack T) :
  drain_stack (push_all xs s) = Ok (reverse xs ++ reverse (stack.items s)).
Proof.
  destruct s as [l]. cbn [stack.items].
  by rewrite push_all_items, drain_stack_items, reverse_app.
Qed.

(** X5: adding any items to any queue and draining it with [Next] yields
    the items the queue held before followed by the added items, each in
    the order of insertion; the drain does not panic. *)
Theorem queue_fifo_general {T : Type} `{GoZero T} (xs : list T) (q : queue.Queue T) :
  drain_queue (add_all xs q) = Ok (queue.items q ++ xs).
Proof.
  destruct q as [l]. cbn [queue.items].
  by rewrite add_all_items, drain_queue_items.
Qed.

(** ** Further properties of the pipeline *)

(** Case analysis of one move, as in the correctness proof above. *)
Ltac move_cases Hstep :=
  match type of Hstep with
  | step _ _ ?g ?s = Some _ =>
      destruct s as [c st n cl ws]; destruct g as [|j]; destruct c;
      unfold step, main_step, worker_step in Hstep; cbn in Hstep
  end;
  repeat match type of Hstep with
    | context [stack.IsEmpty ?st] =>
        let l := fresh "l" in let x := fresh "x" in
        let He := fresh "Hempty" in let Hi := fresh "Hitems" in
        let Hp := fresh "Hpop" in
        destruct (Pop_cases st) as [[He Hi]|(l & x & He & Hi & Hp)];
        rewrite He in Hstep; [|rewrite Hp in Hstep]; cbn in Hstep
    | context [?ws !! ?j] =>
        let Hj := fresh "Hj" in
        let id := fresh "id" in let wst := fresh "wst" in
        destruct (ws !! j) as [[id wst]|] eqn:Hj; [destruct wst|]; cbn in Hstep
    | context [?i <=? ?w] => destruct (Z.leb_spec i w); cbn in Hstep
    | context [bool_decide ?P] => rewrite (bool_decide_true P) in Hstep by done; cbn in Hstep
    | context [if ?b then _ else _] => is_var b; destruct b; cbn in Hstep
    end;
  try discriminate Hstep;
  try (injection Hstep as <-).

Section PoolFacts.
Context {T : Type} `{GoZero T} (validate : T → bool) (W : Z).
Implicit Types (s : state T) (ws : list (Z * wstate T)) (xs : list T).

Lemma reach_inv xs sched s :
  exec validate W sched (init (push_all xs stack.New)) = Some s → inv validate W xs s.
Proof.
  unfold stack.New. rewrite push_all_items, app_nil_l.
  apply inv_exec, inv_init.
Qed.

Lemma idle_busy_le ws : sumw idle ws + sumw busy ws ≤ len ws.
Proof.
  induction ws as [|[id st] ws IH]; [done|].
  rewrite len_cons. cbn. destruct st; cbn; lia.
Qed.

Lemma none_done ws :
  sumw idle ws + sumw busy ws = len ws → Forall (λ w, w.2 ≠ WDone) ws.
Proof.
  induction ws as [|[id st] ws IH]; [constructor|].
  rewrite len_cons. cbn. intros Hsum.
  pose proof (idle_busy_le ws).
  constructor; [|apply IH]; destruct st; cbn in *; try done; lia.
Qed.

Lemma one_busy ws :
  sumw busy ws = 1 →
  ∃ j id st, ws !! j = Some (id, st) ∧ busy st = 1 ∧
    ∀ j' w, j' ≠ j → ws !! j' = Some w → busy w.2 = 0.
Proof.
  induction ws as [|[id st] ws IH]; cbn; [lia|]. intros Hsum.
  pose proof (sumw_nonneg busy ws busy_nonneg) as Hge.
  destruct (decide (busy st = 1)) as [Hb|Hb].
  - exists 0%nat, id, st. repeat split; [done|].
    intros [|j'] w Hne Hw; [done|]. cbn in Hw.
    pose proof (not_busy_all ws ltac:(lia)) as Hall.
    rewrite Forall_lookup in Hall. by destruct (Hall j' w Hw) as [-> | ->].
  - assert (busy st = 0) as H0 by (destruct st; cbn in *; lia).
    destruct IH as (j & id' & st' & Hj & Hb' & Hothers); [lia|].
    exists (S j), id', st'. repeat split; [done..|].
    intros [|j'] w Hne Hw; cbn in Hw.
    + by injection Hw as <-.
    + apply (Hothers j'); [lia|done].
Qed.

Lemma ids_step xs s s' g :
  inv validate W xs s →
  (workers s).*1 = seqZ 1 (len (workers s)) →
  step validate W g s = Some s' →
  (workers s').*1 = seqZ 1 (len (workers s')).
Proof.
  intros [_ _ _ _ _ _ Hpool _ _] Hids Hstep.
  move_cases Hstep; cbn in *; try done.
  all: try (unfold len in *; rewrite list_fmap_insert, length_insert; cbn;
            rewrite list_insert_id; [done|];
            by rewrite list_lookup_fmap, Hj).
  all: rewrite fmap_app, Hids; cbn.
  all: change (ws ++ [(i, WRecv)]) with (append ws (i, @WRecv T)).
  all: rewrite len_append, seqZ_app by (pose proof (len_nonneg ws); lia).
  all: f_equal; change (seqZ (1 + len ws) 1) with [Z.of_nat 0 + (1 + len ws)].
  all: f_equal; lia.
Qed.
End PoolFacts.

(** X6: the pool never works on two items at once.  In every state of
    every run, for every number of workers: while the coordinator waits for
    a verdict exactly one worker holds an item or its verdict and no other
    worker does; at every other time no worker holds anything. *)
Theorem one_item_in_flight {T : Type} `{GoZero T}
    (validate : T → bool) (W : Z) (xs : list T) (sched : list goroutine) (s : state T) :
  exec validate W sched (init (push_all xs stack.New)) = Some s →
  (pc s = CRecv →
   ∃ j id st, workers s !! j = Some (id, st) ∧
     ((∃ item, st = WGot item) ∨ (∃ valid, st = WSend valid)) ∧
     ∀ j' w, j' ≠ j → workers s !! j' = Some w → w.2 = WRecv) ∧
  (pc s ≠ CRecv → Forall (λ w, w.2 = WRecv ∨ w.2 = WDone) (workers s)).
Proof.
  intros Hexec. apply reach_inv in Hexec.
  destruct Hexec as [_ _ _ Hbusy Hopen Hclosed _ _ _]. split.
  - intros Hpc. rewrite Hpc in *. cbn in Hbusy.
    assert (in_closed s = false) as Hcl.
    { destruct (in_closed s); [|done]. by destruct Hclosed as [Hc _]; specialize (Hc eq_refl). }
    pose proof (none_done _ (Hopen Hcl)) as Hnd. rewrite Forall_lookup in Hnd.
    destruct (one_busy _ Hbusy) as (j & id & st & Hj & Hb & Hothers).
    exists j, id, st. split; [done|]. split.
    + destruct st as [|item|valid|]; cbn in Hb; try lia; eauto.
    + intros j' w Hne Hw. specialize (Hothers j' w Hne Hw). specialize (Hnd j' w Hw).
      destruct w as [id' [| | |]]; cbn in *; try done; lia.
  - intros Hpc. apply not_busy_all. rewrite Hbusy. by destruct (pc s).
Qed.

Lemma one_item_in_flight_witness :
  exec validate_int 3 [Main; Main; Main; Main; Main; Worker 1; Worker 1]
    (init (push_all [5; 12] stack.New))
    = Some (mkState CRecv (stack.mkStack [5]) 0 false
              [(1, WRecv); (2, WSend true); (3, WRecv)]) ∧
  ∃ j id st,
    [(1, @WRecv Z); (2, WSend true); (3, WRecv)] !! j = Some (id, st) ∧
    ((∃ item, st = WGot item) ∨ (∃ valid, st = WSend valid)).
Proof.
  split; [reflexivity|].
  destruct (one_item_in_flight validate_int 3 [5; 12]
              [Main; Main; Main; Main; Main; Worker 1; Worker 1]
              (mkState CRecv (stack.mkStack [5]) 0 false
                 [(1, WRecv); (2, WSend true); (3, WRecv)]) eq_refl) as [Hone _].
  destruct (Hone eq_refl) as (j & id & st & Hj & Hst & _).
  by exists j, id, st.
Defined.

(** X7: the input channel is closed only at the end, and no worker leaves
    before.  In every state of every run: while the channel is open no
    worker has left its loop; once it is closed the coordinator is past
    [close], the stack is empty and no worker holds an item or a verdict. *)
Theorem workers_stay_until_close {T : Type} `{GoZero T}
    (validate : T → bool) (W : Z) (xs : list T) (sched : list goroutine) (s : state T) :
  exec validate W sched (init (push_all xs stack.New)) = Some s →
  (in_closed s = false → Forall (λ w, w.2 ≠ WDone) (workers s)) ∧
  (in_closed s = true →
   pc s = CDone ∧ stack.items (stk s) = [] ∧
   Forall (λ w, w.2 = WRecv ∨ w.2 = WDone) (workers s)).
Proof.
  intros Hexec. apply reach_inv in Hexec.
  destruct Hexec as [_ _ _ Hbusy Hopen Hclosed _ Hempty _]. split.
  - intros Hcl. by apply none_done, Hopen.
  - intros Hcl. apply Hclosed in Hcl. split; [done|]. split; [by apply Hempty; right|].
    apply not_busy_all. by rewrite Hbusy, Hcl.
Qed.

Lemma workers_stay_until_close_witness :
  exec validate_int 3 [Main; Main; Main; Main; Main; Worker 1; Worker 1]
    (init (push_all [5; 12] stack.New))
    = Some (mkState CRecv (stack.mkStack [5]) 0 false
              [(1, WRecv); (2, WSend true); (3, WRecv)]) ∧
  Forall (λ w : Z * wstate Z, w.2 ≠ WDone) [(1, WRecv); (2, WSend true); (3, WRecv)].
Proof.
  split; [reflexivity|].
  destruct (workers_stay_until_close validate_int 3 [5; 12]
              [Main; Main; Main; Main; Main; Worker 1; Worker 1]
              (mkState CRecv (stack.mkStack [5]) 0 false
                 [(1, WRecv); (2, WSend true); (3, WRecv)]) eq_refl) as [Hopen _].
  exact (Hopen eq_refl).
Defined.

(** X8: for every number of workers, also none or a negative one, and in
    every state of every run: the coordinator has not panicked, the schedule
    is no longer than [2 * max(0, W) + 5 * N + 3] moves, [num_valid] lies
    between 0 and the number of valid items, and when the coordinator is
    past [close] the stack is empty and [num_valid] is the number of valid
    items. *)
Theorem pipeline_safe_for_every_pool {T : Type} `{GoZero T}
    (validate : T → bool) (W : Z) (xs : list T) (sched : list goroutine) (s : state T) :
  exec validate W sched (init (push_all xs stack.New)) = Some s →
  pc s ≠ CPanic ∧
  len sched ≤ 2 * Z.max 0 W + 5 * len xs + 3 ∧
  0 ≤ num_valid s ≤ count_valid validate xs ∧
  count_valid validate xs ≤ len xs ∧
  (pc s = CDone →
   stack.items (stk s) = [] ∧ num_valid s = count_valid validate xs).
Proof.
  intros Hexec. pose proof (reach_inv validate W xs sched s Hexec) as Hinv.
  destruct (num_valid_bounds validate W xs s Hinv) as [Hn Hc].
  split; [apply Hinv|]. split; [|split; [done|split; [done|]]].
  - unfold stack.New in Hexec. rewrite push_all_items, app_nil_l in Hexec.
    pose proof (weight_exec validate W _ _ _ Hexec) as Hw.
    pose proof (weight_nonneg W s).
    unfold weight at 2 in Hw. cbn in Hw. lia.
  - intros Hpc. split; [apply Hinv; by right|]. by apply (inv_done validate W).
Qed.

Lemma pipeline_safe_for_every_pool_witness :
  exec validate_int (-2) [Main; Main] (init (push_all [12; 5] stack.New))
    = Some (mkState (CSend 5) (stack.mkStack [12]) 0 false []) ∧
  len [Main; Main] ≤ 2 * Z.max 0 (-2) + 5 * len [12; 5] + 3.
Proof.
  split; [reflexivity|].
  apply (pipeline_safe_for_every_pool validate_int (-2) [12; 5] [Main; Main]
           (mkState (CSend 5) (stack.mkStack [12]) 0 false [])).
  reflexivity.
Defined.

(** X9: the spawn loop numbers the workers 1, 2, 3, ... in the order in
    which it starts them, a worker keeps its number, and once the loop is
    left the pool has exactly [max(0, W)] workers. *)
Theorem pool_ids {T : Type} `{GoZero T}
    (validate : T → bool) (W : Z) (xs : list T) (sched : list goroutine) (s : state T) :
  exec validate W sched (init (push_all xs stack.New)) = Some s →
  (workers s).*1 = seqZ 1 (len (workers s)) ∧
  (∀ i, pc s = CSpawn i → len (workers s) = i - 1 ∧ 1 ≤ i ≤ Z.max 0 W + 1) ∧
  ((∀ i, pc s ≠ CSpawn i) → len (workers s) = Z.max 0 W).
Proof.
  intros Hexec. pose proof (reach_inv validate W xs sched s Hexec) as Hinv.
  split; [|split].
  - clear Hinv. revert s Hexec. induction sched as [|g sched IH] using rev_ind; intros s Hexec.
    + by injection Hexec as <-.
    + rewrite exec_app in Hexec.
      destruct (exec validate W sched _) as [s1|] eqn:Hexec1; [|done].
      cbn in Hexec. destruct (step validate W g s1) as [s2|] eqn:Hstep; [|done].
      injection Hexec as ->.
      eapply ids_step; [|by apply IH|exact Hstep].
      by apply (reach_inv validate W xs sched).
  - intros i Hpc. destruct Hinv as [_ _ _ _ _ _ Hpool _ _]. rewrite Hpc in Hpool. lia.
  - intros Hpc. destruct Hinv as [_ _ _ _ _ _ Hpool _ _].
    destruct (pc s) as [i| | | | | |]; try done. by destruct (Hpc i).
Qed.

Lemma pool_ids_witness :
  exec validate_int 3 demo_sched (init (push_all [5; 12; 19; 26] stack.New))
    = Some demo_final ∧
  (workers demo_final).*1 = [1; 2; 3].
Proof.
  split; [reflexivity|].
  apply (pool_ids validate_int 3 [5; 12; 19; 26] demo_sched demo_final).
  reflexivity.
Defined.

Section TrafficFacts.
Context {T : Type} `{GoZero T} (validate : T → bool) (W : Z).
Implicit Types (s : state T) (xs : list T) (tr : list (event T)).

Lemma traffic_app sched1 sched2 s s1 :
  exec validate W sched1 s = Some s1 →
  traffic validate W (sched1 ++ sched2) s =
    traffic validate W sched1 s ++ traffic validate W sched2 s1.
Proof.
  revert s. induction sched1 as [|g sched1 IH]; intros s Hexec; cbn in *.
  - by injection Hexec as <-.
  - destruct (step validate W g s) as [s2|]; [|done]. cbn in Hexec.
    by rewrite (IH s2 Hexec), app_assoc.
Qed.

Lemma rounds_snoc xs x :
  rounds validate (xs ++ [x]) = rounds validate xs ++ [EvItem x; EvVerdict (validate x)].
Proof. induction xs as [|y xs IH]; cbn; [done|]. by rewrite IH. Qed.

Lemma idle_serving x (w : Z * wstate T) : w.2 = WRecv ∨ w.2 = WDone → serving validate x w.2.
Proof. by intros [-> | ->]. Qed.

Lemma traffic_step xs tr g s s' :
  inv validate W xs s →
  traffic_inv validate xs tr s →
  step validate W g s = Some s' →
  traffic_inv validate xs (tr ++ emits g s) s'.
Proof.
  intros Hinv (judged & Hn & Hshape) Hstep.
  assert (receiving (pc s) = 0 →
          Forall (λ w, w.2 = WRecv ∨ w.2 = WDone) (workers s)) as Hidle.
  { intros Hr. apply not_busy_all. destruct Hinv as [_ _ _ Hbusy _ _ _ _ _]. lia. }
  clear Hinv. move_cases Hstep; unfold traffic_inv, emits; cbn in *.
  all: rewrite ?Hj; cbn; rewrite ?app_nil_r.
  all: try match goal with Hi : stack.items _ = _ |- _ => rewrite Hi in * end.
  all: rewrite ?reverse_snoc in *.
  all: try (exists judged; split; [done|]; done).
  - destruct Hshape as [Hrev ->]. exists judged. split; [done|].
    exists item. repeat split; [done|].
    apply Forall_insert; [|done].
    eapply Forall_impl; [by apply Hidle|]. intros w. apply idle_serving.
  - destruct Hshape as (x & Hrev & -> & Hall). exists judged. split; [done|].
    exists x. repeat split; [done|]. by apply Forall_insert.
  - destruct Hshape as (x & Hrev & -> & Hall). exists judged. split; [done|].
    exists x. repeat split; [done|]. apply Forall_insert; [done|].
    rewrite Forall_lookup in Hall. specialize (Hall j _ Hj). cbn in *. by subst.
  - destruct Hshape as (x & Hrev & -> & Hall).
    rewrite Forall_lookup in Hall. specialize (Hall j _ Hj). cbn in Hall.
    exists (judged ++ [x]). rewrite count_valid_app, count_valid_cons, <- Hall.
    change (count_valid validate []) with 0. cbn.
    split; [lia|]. rewrite <- !app_assoc. split; [done|].
    by rewrite rounds_snoc, <- Hall.
  - destruct Hshape as (x & Hrev & -> & Hall).
    rewrite Forall_lookup in Hall. specialize (Hall j _ Hj). cbn in Hall.
    exists (judged ++ [x]). rewrite count_valid_app, count_valid_cons, <- Hall.
    change (count_valid validate []) with 0. cbn.
    split; [lia|]. rewrite <- !app_assoc. split; [done|].
    by rewrite rounds_snoc, <- Hall.
Qed.

Lemma traffic_reach xs sched s :
  exec validate W sched (init (push_all xs stack.New)) = Some s →
  traffic_inv validate xs (traffic validate W sched (init (push_all xs stack.New))) s.
Proof.
  revert s. induction sched as [|g sched IH] using rev_ind; intros s Hexec.
  - injection Hexec as <-. exists []. cbn. unfold stack.New.
    by rewrite push_all_items, app_nil_l.
  - rewrite exec_app in Hexec.
    destruct (exec validate W sched _) as [s1|] eqn:Hexec1; [|done].
    cbn in Hexec. destruct (step validate W g s1) as [s2|] eqn:Hstep; [|done].
    injection Hexec as ->.
    rewrite (traffic_app _ _ _ _ Hexec1). cbn. rewrite Hstep, app_nil_r.
    eapply traffic_step; [|by apply IH|exact Hstep].
    by apply (reach_inv validate W xs sched).
Qed.
End TrafficFacts.

(** X10: the traffic on the two channels.  In every state of every run,
    for every number of workers, the items that went over the input channel
    and the verdicts that came back over the output channel alternate: the
    items are those of the stack, last pushed first, each followed by the
    validator's verdict for this very item, with at most the last item
    still waiting for its verdict; [num_valid] counts the valid ones among
    the items judged so far, and the items not yet sent are those still on
    the stack.  When the coordinator is past [close], every item of the
    stack has gone through in this way. *)
Theorem channel_traffic_lifo {T : Type} `{GoZero T}
    (validate : T → bool) (W : Z) (xs : list T) (sched : list goroutine) (s : state T) :
  exec validate W sched (init (push_all xs stack.New)) = Some s →
  let tr := traffic validate W sched (init (push_all xs stack.New)) in
  (∃ judged,
     num_valid s = count_valid validate judged ∧
     match pc s with
     | CRecv =>
         ∃ x, reverse xs = judged ++ x :: reverse (stack.items (stk s)) ∧
              tr = rounds validate judged ++ [EvItem x]
     | CSend x =>
         reverse xs = judged ++ x :: reverse (stack.items (stk s)) ∧
         tr = rounds validate judged
     | _ =>
         reverse xs = judged ++ reverse (stack.items (stk s)) ∧
         tr = rounds validate judged
     end) ∧
  (pc s = CDone → tr = rounds validate (reverse xs)).
Proof.
  intros Hexec tr.
  pose proof (traffic_reach validate W xs sched s Hexec) as (judged & Hn & Hshape).
  pose proof (reach_inv validate W xs sched s Hexec) as Hinv.
  split.
  - exists judged. split; [done|]. fold tr in Hshape.
    destruct (pc s); try done. destruct Hshape as (x & Hrev & Htr & _). by exists x.
  - intros Hpc. fold tr in Hshape. rewrite Hpc in Hshape.
    destruct Hshape as [Hrev ->].
    destruct Hinv as [_ _ _ _ _ _ _ Hempty _].
    rewrite Hempty in Hrev by by right. cbn in Hrev.
    by rewrite app_nil_r in Hrev; subst.
Qed.

Lemma channel_traffic_lifo_witness :
  exec validate_int 3 demo_sched (init (push_all [5; 12; 19; 26] stack.New))
    = Some demo_final ∧
  traffic validate_int 3 demo_sched (init (push_all [5; 12; 19; 26] stack.New))
    = [EvItem 26; EvVerdict true; EvItem 19; EvVerdict false;
       EvItem 12; EvVerdict true; EvItem 5; EvVerdict false].
Proof.
  split; [reflexivity|].
  assert (exec validate_int 3 demo_sched (init (push_all [5; 12; 19; 26] stack.New))
            = Some demo_final) as Hexec by reflexivity.
  destruct (channel_traffic_lifo validate_int 3 [5; 12; 19; 26] demo_sched demo_final
              Hexec) as [_ Hdone].
  rewrite (Hdone eq_refl). reflexivity.
Defined.

(** X11: the two runs of [main].  On the stack of the 21 numbers 5, 12,
    ..., 145 with the validation "is even", and on the stack of the three
    strings with the validation "contains World", each with the three
    workers of [NUM_WORKERS]: under every schedule the count that the
    coordinator reports is 10 for the numbers and 2 for the strings, and
    neither run is deadlocked before its end. *)
Theorem main_reports
    (sched_int sched_str : list goroutine) (s_int : state Z) (s_str : state string) :
  exec validate_int NUM_WORKERS sched_int (init stack_int) = Some s_int →
  exec validate_str NUM_WORKERS sched_str (init stack_str) = Some s_str →
  (pc s_int = CDone → num_valid s_int = 10) ∧
  (pc s_str = CDone → num_valid s_str = 2) ∧
  (stuck validate_int NUM_WORKERS s_int → terminated s_int) ∧
  (stuck validate_str NUM_WORKERS s_str → terminated s_str) ∧
  (∃ sched' s', exec validate_int NUM_WORKERS sched' s_int = Some s' ∧
                terminated s' ∧ num_valid s' = 10) ∧
  (∃ sched' s', exec validate_str NUM_WORKERS sched' s_str = Some s' ∧
                terminated s' ∧ num_valid s' = 2).
Proof.
  intros Hint Hstr.
  destruct (run_correct validate_int NUM_WORKERS
              (map (λ i, 5 + i * 7) (seqZ 0 (NUM_INTS + 1))) sched_int s_int)
    as (_ & Hd1 & Hs1 & Hf1); [done|done|].
  destruct (run_correct validate_str NUM_WORKERS
              ["Hello World"; "Generics"; "World Wide Web"]%string sched_str s_str)
    as (_ & Hd2 & Hs2 & Hf2); [done|done|].
  change (count_valid validate_int _) with 10 in *.
  change (count_valid validate_str _) with 2 in *.
  done.
Qed.

Lemma main_reports_witness :
  exec validate_int NUM_WORKERS [Main; Main; Main; Main; Main] (init stack_int)
    = Some (mkState (CSend 145)
              (push_all (map (λ i, 5 + i * 7) (seqZ 0 20)) stack.New) 0 false
              [(1, WRecv); (2, WRecv); (3, WRecv)]) ∧
  exec validate_str NUM_WORKERS
    [Main; Main; Main; Main;
     Main; Worker 2; Worker 2; Worker 2;
     Main; Worker 0; Worker 0; Worker 0;
     Main; Worker 2; Worker 2; Worker 2;
     Main; Main] (init stack_str)
    = Some (mkState CDone (stack.mkStack []) 2 true
              [(1, WRecv); (2, WRecv); (3, WRecv)]) ∧
  num_valid (mkState CDone (stack.mkStack []) 2 true
               [(1, @WRecv string); (2, WRecv); (3, WRecv)]) = 2.
Proof.
  assert (exec validate_int NUM_WORKERS [Main; Main; Main; Main; Main] (init stack_int)
    = Some (mkState (CSend 145)
              (push_all (map (λ i, 5 + i * 7) (seqZ 0 20)) stack.New) 0 false
              [(1, WRecv); (2, WRecv); (3, WRecv)])) as Hint by reflexivity.
  assert (exec validate_str NUM_WORKERS
    [Main; Main; Main; Main;
     Main; Worker 2; Worker 2; Worker 2;
     Main; Worker 0; Worker 0; Worker 0;
     Main; Worker 2; Worker 2; Worker 2;
     Main; Main] (init stack_str)
    = Some (mkState CDone (stack.mkStack []) 2 true
              [(1, WRecv); (2, WRecv); (3, WRecv)])) as Hstr by reflexivity.
  split; [exact Hint|]. split; [exact Hstr|].
  destruct (main_reports _ _ _ _ Hint Hstr) as (_ & Hd & _).
  exact (Hd eq_refl).
Defined.

(** ** [SliceFn.Swap] *)

Section SwapFacts.
Context {T : Type}.
Implicit Types (l : list T) (f : slicefn.SliceFn T).

Lemma slice_index_in l i :
  0 ≤ i < len l → ∃ x, l !! Z.to_nat i = Some x ∧ slice_index l i = Ok x.
Proof.
  intros Hi. unfold slice_index.
  destruct (Z.leb_spec 0 i); [|lia]. destruct (Z.ltb_spec i (len l)); [|lia]. cbn.
  destruct (l !! Z.to_nat i) as [x|] eqn:Hx; [by exists x|].
  apply lookup_ge_None in Hx. unfold len in *. lia.
Qed.

Lemma slice_index_out l i : ¬ (0 ≤ i < len l) → slice_index l i = Panic.
Proof.
  intros Hi. unfold slice_index.
  destruct (Z.leb_spec 0 i); [|done]. destruct (Z.ltb_spec i (len l)); [lia|done].
Qed.

(** The slice after the two assignments, index by index. *)
Lemma swapped_lookup l I J xi xj k :
  l !! I = Some xi → l !! J = Some xj →
  <[J := xi]> (<[I := xj]> l) !! k =
    if decide (k = J) then Some xi
    else if decide (k = I) then Some xj
    else l !! k.
Proof.
  intros HI HJ.
  pose proof (lookup_lt_Some _ _ _ HI). pose proof (lookup_lt_Some _ _ _ HJ).
  destruct (decide (k = J)) as [->|HkJ].
  - apply list_lookup_insert_eq. by rewrite length_insert.
  - rewrite list_lookup_insert_ne by done.
    destruct (decide (k = I)) as [->|HkI].
    + by apply list_lookup_insert_eq.
    + by rewrite list_lookup_insert_ne.
Qed.
End SwapFacts.

(** X12: with both indices in range, [Swap(i, j)] does not panic and
    exchanges the two elements: the slice keeps its length, holds at [i]
    what was at [j] and at [j] what was at [i], and is unchanged everywhere
    else; the [less] field is untouched, and a second [Swap(i, j)] restores
    the slice. *)
Theorem swap_exchanges {T : Type} (f : slicefn.SliceFn T) (i j : Z) :
  0 ≤ i < len (slicefn.s f) → 0 ≤ j < len (slicefn.s f) →
  ∃ f',
    slicefn.Swap f i j = Ok f' ∧
    len (slicefn.s f') = len (slicefn.s f) ∧
    slicefn.less f' = slicefn.less f ∧
    slicefn.s f' !! Z.to_nat i = slicefn.s f !! Z.to_nat j ∧
    slicefn.s f' !! Z.to_nat j = slicefn.s f !! Z.to_nat i ∧
    (∀ k, k ≠ Z.to_nat i → k ≠ Z.to_nat j → slicefn.s f' !! k = slicefn.s f !! k) ∧
    slicefn.Swap f' i j = Ok f.
Proof.
  intros Hi Hj. destruct f as [l le]. cbn [slicefn.s slicefn.less] in *.
  destruct (slice_index_in l i Hi) as (xi & HI & Hxi).
  destruct (slice_index_in l j Hj) as (xj & HJ & Hxj).
  set (l' := <[Z.to_nat j := xi]> (<[Z.to_nat i := xj]> l)).
  assert (∀ k, l' !! k = if decide (k = Z.to_nat j) then Some xi
                         else if decide (k = Z.to_nat i) then Some xj
                         else l !! k) as Hl'.
  { intros k. by apply swapped_lookup. }
  assert (len l' = len l) as Hlen.
  { unfold len, l'. by rewrite !length_insert. }
  exists (slicefn.mkSliceFn l' le). cbn [slicefn.s slicefn.less].
  split; [|split; [done|split; [done|split; [|split; [|split]]]]].
  - unfold slicefn.Swap. cbn [slicefn.s slicefn.less]. by rewrite Hxj, Hxi.
  - rewrite Hl', HJ. destruct (decide (Z.to_nat i = Z.to_nat j)) as [Heq|Hne].
    + rewrite Heq in HI. congruence.
    + by rewrite decide_True.
  - rewrite Hl'. by rewrite decide_True.
  - intros k Hki Hkj. rewrite Hl'. by rewrite !decide_False.
  - assert (l' !! Z.to_nat j = Some xi) as HJ' by (rewrite Hl'; by rewrite decide_True).
    assert (l' !! Z.to_nat i = Some xj) as HI'.
    { rewrite Hl'. destruct (decide (Z.to_nat i = Z.to_nat j)) as [Heq|Hne].
      - rewrite Heq in HI. congruence.
      - by rewrite decide_True. }
    unfold slicefn.Swap. cbn [slicefn.s slicefn.less].
    assert (slice_index l' j = Ok xi) as ->.
    { destruct (slice_index_in l' j ltac:(lia)) as (y & Hy & ->). congruence. }
    assert (slice_index l' i = Ok xj) as ->.
    { destruct (slice_index_in l' i ltac:(lia)) as (y & Hy & ->). congruence. }
    cbn. do 2 f_equal. apply list_eq. intros k.
    rewrite (swapped_lookup l' _ _ _ _ k HI' HJ'), Hl'.
    destruct (decide (k = Z.to_nat j)) as [->|?]; [done|].
    by destruct (decide (k = Z.to_nat i)) as [->|?].
Qed.

Lemma swap_exchanges_witness :
  0 ≤ 0 < len [10; 20; 30] ∧ 0 ≤ 2 < len [10; 20; 30] ∧
  ∃ f', slicefn.Swap (slicefn.mkSliceFn [10; 20; 30] Z.ltb) 0 2 = Ok f' ∧
        slicefn.s f' !! 0%nat = Some 30.
Proof.
  assert (0 ≤ 0 < len [10; 20; 30]) as H0 by (by cbv).
  assert (0 ≤ 2 < len [10; 20; 30]) as H2 by (by cbv).
  split; [done|]. split; [done|].
  destruct (swap_exchanges (slicefn.mkSliceFn [10; 20; 30] Z.ltb) 0 2 H0 H2)
    as (f' & Hswap & _ & _ & Hat & _).
  exists f'. split; [done|]. exact Hat.
Defined.

(** X13: [Swap(i, j)] panics exactly when one of the two indices is
    negative or not below the length of the slice. *)
Theorem swap_panics_out_of_range {T : Type} (f : slicefn.SliceFn T) (i j : Z) :
  slicefn.Swap f i j = Panic ↔
  ¬ (0 ≤ i < len (slicefn.s f) ∧ 0 ≤ j < len (slicefn.s f)).
Proof.
  destruct f as [l le]. unfold slicefn.Swap. cbn [slicefn.s slicefn.less].
  destruct (decide (0 ≤ j < len l)) as [Hj|Hj].
  - destruct (slice_index_in l j Hj) as (xj & _ & ->). cbn.
    destruct (decide (0 ≤ i < len l)) as [Hi|Hi].
    + destruct (slice_index_in l i Hi) as (xi & _ & ->). cbn.
      split; [done|]. by intros [].
    + rewrite (slice_index_out l i Hi). cbn. split; [|done]. by intros _ [? _].
  - rewrite (slice_index_out l j Hj). cbn. split; [|done]. by intros _ [_ ?].
Qed.

Lemma swap_panics_out_of_range_witness :
  slicefn.Swap (slicefn.mkSliceFn [10; 20; 30] Z.ltb) 1 3 = Panic.
Proof.
  apply swap_panics_out_of_range. cbn. unfold len. cbn. lia.
Defined.
